(** * DocumentSelection (ckeditor5-engine, model/documentselection.js)

    A shallow embedding of the [DocumentSelection] class: the selection's
    attribute map, the attribute-resolution pass [_updateAttributes], the
    attribute store kept on an empty parent element under the ['selection:']
    prefix, and the live ranges held by the selection.

    JavaScript objects that are mutated in place and shared (the [Map] held in
    [this._attrs], which the closure of [_setStoredAttributesTo] captures) live
    in a heap of [Map] objects addressed by references.  Methods are
    state-passing computations that either complete normally or throw. *)

From Stdlib Require Import ZArith Ascii String List Lia Bool.
From stdpp Require Import base option list gmap strings.
Import ListNotations.

Local Open Scope Z_scope.
Local Open Scope nat_scope.

(** ** JavaScript values and [Map] *)

(** Attribute values are opaque to the selection; three kinds of primitive
    values are enough to tell maps apart. *)
Inductive Value :=
| VBool (b : bool)
| VNumber (n : Z)
| VString (s : string).

#[global] Instance Value_eq_dec : EqDecision Value.
Proof. solve_decision. Defined.

(** The entries of a [Map] (or what an iterable of pairs yields), in
    iteration order. *)
Abbreviation Entries := (list (string * Value)).

(** A JavaScript [Map] with string keys: its entries in insertion order. *)
Module JSMap.

(** [map.set( key, value )]: an existing key keeps its place and takes the
    new value, a new key is appended. *)
Fixpoint set (key : string) (value : Value) (m : Entries) : Entries :=
  match m with
  | [] => [(key, value)]
  | (k, v) :: m' =>
      if String.eqb k key then (k, value) :: m' else (k, v) :: set key value m'
  end.

(** [map.delete( key )]. *)
Definition delete (key : string) (m : Entries) : Entries :=
  List.filter (fun e => negb (String.eqb (fst e) key)) m.

(** [map.get( key )], [None] for [undefined]. *)
Fixpoint get (key : string) (m : Entries) : option Value :=
  match m with
  | [] => None
  | (k, v) :: m' => if String.eqb k key then Some v else get key m'
  end.

(** [map.has( key )]. *)
Definition has (key : string) (m : Entries) : bool :=
  existsb (fun e => String.eqb (fst e) key) m.

(** [new Map( iterable )]: the pairs are [set] one after the other. *)
Definition fromIterable (pairs : Entries) : Entries :=
  fold_left (fun m e => set (fst e) (snd e) m) pairs [].

Definition keys (m : Entries) : list string := List.map fst m.

End JSMap.

(** ** The store prefix *)

Definition storePrefix : string := "selection:".

(** [DocumentSelection._getStoreAttributeKey( key )]. *)
Definition _getStoreAttributeKey (key : string) : string :=
  String.append storePrefix key.

(** [s.indexOf( p ) === 0]: [p] occurs at the very start of [s]. *)
Definition startsWith (p s : string) : bool := String.prefix p s.

(** [s.substr( start )]: the characters of [s] from index [start] on. *)
Fixpoint substr (start : nat) (s : string) : string :=
  match start, s with
  | O, _ => s
  | S n, EmptyString => EmptyString
  | S n, String _ s' => substr n s'
  end.

(** ** The document tree *)

(** Modelled from the spec: a node of the tree is text-bearing, a character
    with its attributes (the [CharacterProxy] of the code), or an element
    with attributes and children (node.js, element.js and characterproxy.js
    are not among the sources). *)
#[warnings="-register-all"]
Inductive Node :=
| CharacterProxy (character : ascii) (attrs : Entries)
| Element (name : string) (attrs : Entries) (children : list Node).

(** [node instanceof CharacterProxy]. *)
Definition isCharacterProxy (n : Node) : bool :=
  match n with CharacterProxy _ _ => true | Element _ _ _ => false end.

(** Modelled from the spec: [node.getAttributes()] iterates the node's own
    attributes. *)
Definition Node_getAttributes (n : Node) : Entries :=
  match n with CharacterProxy _ a => a | Element _ a _ => a end.

Definition Node_children (n : Node) : list Node :=
  match n with CharacterProxy _ _ => [] | Element _ _ ch => ch end.

(** Modelled from the spec: [element.getChildCount()]. *)
Definition getChildCount (n : Node) : nat := length (Node_children n).

(** Modelled from the spec: [element.getChild( index )], the child at an
    offset; [None] stands for the [null] given when the index is negative or
    past the last child. *)
Definition getChild (n : Node) (index : Z) : option Node :=
  if (index <? 0)%Z then None else Node_children n !! Z.to_nat index.

(** A path of child indices from the root names a node; with no structural
    edits in this model it is the node's identity. *)
Abbreviation Path := (list nat).

Fixpoint getNodeByPath (n : Node) (path : Path) : option Node :=
  match path with
  | [] => Some n
  | i :: rest =>
      match Node_children n !! i with
      | Some c => getNodeByPath c rest
      | None => None
      end
  end.

(** Replaces the attributes of the node at [path] by [f] of them. *)
Fixpoint alterAttributes (f : Entries -> Entries) (path : Path) (n : Node) : Node :=
  match path, n with
  | [], CharacterProxy c a => CharacterProxy c (f a)
  | [], Element name a ch => Element name (f a) ch
  | i :: rest, Element name a ch =>
      Element name a
        (match ch !! i with
         | Some c => <[i := alterAttributes f rest c]> ch
         | None => ch
         end)
  | _ :: _, CharacterProxy _ _ => n
  end.

(** ** Positions and ranges *)

(** Modelled from the spec: a Position is a container node and an integer
    offset (position.js is not among the sources).  The container is named by
    its path from the root. *)
Record Position := mkPosition { parentPath : Path; offset : nat }.

#[global] Instance Position_eq_dec : EqDecision Position.
Proof. solve_decision. Defined.

(** Modelled from the spec: a Range is a pair of positions, collapsed when
    start and end are equal (range.js is not among the sources). *)
Record Range := mkRange { start : Position; end_ : Position }.

Definition Range_isCollapsed (r : Range) : bool :=
  bool_decide (start r = end_ r).

(** Modelled from the spec: a position is valid when its container exists
    and its offset lies within [0, childCount]. *)
Definition Position_isValid (root : Node) (p : Position) : bool :=
  match getNodeByPath root (parentPath p) with
  | Some (Element _ _ ch) => offset p <=? length ch
  | _ => false
  end.

(** Modelled from the spec: a LiveRange is a Range subscribed to the
    document's change notifications until it is detached (liverange.js is not
    among the sources).  [liveId] names the subscription. *)
Record LiveRange := mkLiveRange { liveId : nat; liveRange : Range }.

(** ** Walking a range *)

Inductive TreeWalkerValueType := ELEMENT_START | ELEMENT_END | CHARACTER | TEXT.

#[global] Instance TreeWalkerValueType_eq_dec : EqDecision TreeWalkerValueType.
Proof. solve_decision. Defined.

(** Modelled from the spec: what a walker value carries, an element or a
    run of characters that share their attributes. *)
Inductive Item :=
| ElementItem (element : Node)
| TextFragment (text : string) (attrs : Entries).

(** [item.getAttributes()]. *)
Definition Item_getAttributes (i : Item) : Entries :=
  match i with
  | ElementItem e => Node_getAttributes e
  | TextFragment _ a => a
  end.

Record TreeWalkerValue := mkValue { type : TreeWalkerValueType; item : Item }.

(** Modelled from the spec: document order on positions, the lexicographic
    order of the path extended by the offset, a prefix coming before its
    extensions. *)
Fixpoint Path_compare (a b : Path) : comparison :=
  match a, b with
  | [], [] => Eq
  | [], _ :: _ => Lt
  | _ :: _, [] => Gt
  | x :: a', y :: b' =>
      match Nat.compare x y with
      | Eq => Path_compare a' b'
      | c => c
      end
  end.

Definition Position_key (p : Position) : Path := parentPath p ++ [offset p].

(** Modelled from the spec: every step a walker can make inside the child
    [n] (the [i]-th child of the element at [path]), each with the position
    the walker is at before the step. *)
Fixpoint walkNode (path : Path) (i : nat) (n : Node) : list (Path * TreeWalkerValue) :=
  match n with
  | CharacterProxy c a =>
      [(path ++ [i], mkValue CHARACTER (TextFragment (String c EmptyString) a))]
  | Element _ _ ch =>
      (path ++ [i], mkValue ELEMENT_START (ElementItem n))
      :: (fix walkChildren (j : nat) (l : list Node) {struct l} :=
            match l with
            | [] => []
            | c :: l' => walkNode (path ++ [i]) j c ++ walkChildren (S j) l'
            end) 0 ch
      ++ [((path ++ [i]) ++ [length ch], mkValue ELEMENT_END (ElementItem n))]
  end.

Fixpoint walkChildren (path : Path) (j : nat) (l : list Node) : list (Path * TreeWalkerValue) :=
  match l with
  | [] => []
  | c :: l' => walkNode path j c ++ walkChildren path (S j) l'
  end.

(** Modelled from the spec: adjacent characters with the same attributes
    are handed out as one ['TEXT'] value. *)
Fixpoint mergeCharacters (vs : list TreeWalkerValue) : list TreeWalkerValue :=
  match vs with
  | [] => []
  | v :: rest =>
      match type v, item v with
      | CHARACTER, TextFragment c a =>
          match mergeCharacters rest with
          | mkValue TEXT (TextFragment t a') :: rest' =>
              if decide (a = a')
              then mkValue TEXT (TextFragment (String.append c t) a) :: rest'
              else mkValue TEXT (TextFragment c a) :: mkValue TEXT (TextFragment t a') :: rest'
          | merged => mkValue TEXT (TextFragment c a) :: merged
          end
      | _, _ => v :: mergeCharacters rest
      end
  end.

(** Modelled from the spec: iterating a Range scans its contents in document
    order (range.js and treewalker.js are not among the sources).  The walker
    starts at [start], stops on reaching [end], and yields an element's start,
    its end, and each run of text in between. *)
Definition Range_iterator (root : Node) (r : Range) : list TreeWalkerValue :=
  mergeCharacters
    (List.map snd
       (List.filter
          (fun step =>
             match Path_compare (fst step) (Position_key (start r)),
                   Path_compare (fst step) (Position_key (end_ r)) with
             | (Eq | Gt), Lt => true
             | _, _ => false
             end)
          (walkChildren [] 0 (Node_children root)))).

(** ** The world: document, heap of maps, selection *)

(** The functions handed to [document.enqueueChanges], one constructor per
    arrow function of the class, with the variables it captures.  [attrs] is
    a reference to a [Map] object, not a copy of it. *)
Inductive Change :=
| removeStoredAttribute_change (storeKey : string) (selectionParent : Path)
| storeAttribute_change (storeKey : string) (value : Value) (selectionParent : Path)
| setStoredAttributesTo_change (attrs : nat) (selectionParent : Path).

Inductive Event := change_attribute | change_range.

#[global] Instance Event_eq_dec : EqDecision Event.
Proof. solve_decision. Defined.

Record World := mkWorld {
  (* the document *)
  root : Node;                      (* the tree *)
  pendingChanges : list Change;     (* enqueued and not yet run *)
  changeListeners : list nat;       (* live ranges listening to document changes *)
  nextLiveId : nat;
  (* the heap of Map objects *)
  maps : gmap nat Entries;
  nextMap : nat;
  (* the selection *)
  _ranges : list LiveRange;
  _lastRangeBackward : bool;
  _attrs : nat;                     (* reference to the Map in this._attrs *)
  fired : list Event                (* events fired by the selection so far *)
}.

Definition set_root (x : Node) (w : World) : World :=
  mkWorld x (pendingChanges w) (changeListeners w) (nextLiveId w) (maps w) (nextMap w)
          (_ranges w) (_lastRangeBackward w) (_attrs w) (fired w).
Definition set_pendingChanges (x : list Change) (w : World) : World :=
  mkWorld (root w) x (changeListeners w) (nextLiveId w) (maps w) (nextMap w)
          (_ranges w) (_lastRangeBackward w) (_attrs w) (fired w).
Definition set_changeListeners (x : list nat) (w : World) : World :=
  mkWorld (root w) (pendingChanges w) x (nextLiveId w) (maps w) (nextMap w)
          (_ranges w) (_lastRangeBackward w) (_attrs w) (fired w).
Definition set_nextLiveId (x : nat) (w : World) : World :=
  mkWorld (root w) (pendingChanges w) (changeListeners w) x (maps w) (nextMap w)
          (_ranges w) (_lastRangeBackward w) (_attrs w) (fired w).
Definition set_maps (x : gmap nat Entries) (w : World) : World :=
  mkWorld (root w) (pendingChanges w) (changeListeners w) (nextLiveId w) x (nextMap w)
          (_ranges w) (_lastRangeBackward w) (_attrs w) (fired w).
Definition set_nextMap (x : nat) (w : World) : World :=
  mkWorld (root w) (pendingChanges w) (changeListeners w) (nextLiveId w) (maps w) x
          (_ranges w) (_lastRangeBackward w) (_attrs w) (fired w).
Definition set__ranges (x : list LiveRange) (w : World) : World :=
  mkWorld (root w) (pendingChanges w) (changeListeners w) (nextLiveId w) (maps w) (nextMap w)
          x (_lastRangeBackward w) (_attrs w) (fired w).
Definition set__lastRangeBackward (x : bool) (w : World) : World :=
  mkWorld (root w) (pendingChanges w) (changeListeners w) (nextLiveId w) (maps w) (nextMap w)
          (_ranges w) x (_attrs w) (fired w).
Definition set__attrs (x : nat) (w : World) : World :=
  mkWorld (root w) (pendingChanges w) (changeListeners w) (nextLiveId w) (maps w) (nextMap w)
          (_ranges w) (_lastRangeBackward w) x (fired w).
Definition set_fired (x : list Event) (w : World) : World :=
  mkWorld (root w) (pendingChanges w) (changeListeners w) (nextLiveId w) (maps w) (nextMap w)
          (_ranges w) (_lastRangeBackward w) (_attrs w) x.

(** ** Computations that may throw *)

Inductive Error :=
| TypeError                         (* a property read on null or undefined *)
| CKEditorError (message : string).

Inductive Completion (A : Type) :=
| Normal (a : A)
| Throw (e : Error).
Arguments Normal {A} a.
Arguments Throw {A} e.

Definition JS (A : Type) : Type := World -> Completion A * World.

Definition ret {A} (a : A) : JS A := fun w => (Normal a, w).
Definition throw {A} (e : Error) : JS A := fun w => (Throw e, w).
Definition bind {A B} (m : JS A) (k : A -> JS B) : JS B :=
  fun w =>
    match m w with
    | (Normal a, w') => k a w'
    | (Throw e, w') => (Throw e, w')
    end.
Definition gets {A} (f : World -> A) : JS A := fun w => (Normal (f w), w).
Definition modify (f : World -> World) : JS unit := fun w => (Normal tt, f w).

Declare Scope js_scope.
Delimit Scope js_scope with js.
Notation "x <- c1 ;; c2" := (bind c1 (fun x => c2))
  (at level 100, c1 at next level, right associativity) : js_scope.
Notation "c1 ;; c2" := (bind c1 (fun _ => c2))
  (at level 100, right associativity) : js_scope.

(** A [for ... of] loop (or an indexed loop) running [body] on every element
    in turn. *)
Fixpoint forEach {A} (l : list A) (body : A -> JS unit) : JS unit :=
  match l with
  | [] => ret tt
  | x :: l' => bind (body x) (fun _ => forEach l' body)
  end.

Local Open Scope js_scope.

(** ** The heap of [Map] objects *)

(** The entries of the [Map] a reference points to. *)
Definition Map_entries (w : World) (ref : nat) : Entries :=
  default [] (maps w !! ref).

(** [new Map( iterable )]: a fresh object. *)
Definition Map_new (pairs : Entries) : JS nat :=
  fun w =>
    (Normal (nextMap w),
     set_nextMap (S (nextMap w))
       (set_maps (<[nextMap w := JSMap.fromIterable pairs]> (maps w)) w)).

(** Modelled from the spec: [toMap( data )] makes a new [Map] of the pairs
    of an iterable or of the properties of an object (utils/tomap.js is not
    among the sources). *)
Definition toMap (data : Entries) : JS nat := Map_new data.

(** A method of [Map] that changes the object in place. *)
Definition Map_update (ref : nat) (f : Entries -> Entries) : JS unit :=
  modify (fun w => set_maps (<[ref := f (Map_entries w ref)]> (maps w)) w).

(** ** The document *)

(** Modelled from the spec: [document.enqueueChanges( callback )] appends the
    mutation to the pending list of the open transaction, keeping call order;
    nothing runs at call time (document.js is not among the sources). *)
Definition enqueueChanges (callback : Change) : JS unit :=
  modify (fun w => set_pendingChanges (pendingChanges w ++ [callback]) w).

(** Modelled from the spec: the batch's [setAttr( key, value, node )] sets
    the attribute on the node (batch.js is not among the sources). *)
Definition Batch_setAttr (key : string) (value : Value) (node : Path) : JS unit :=
  modify (fun w => set_root (alterAttributes (JSMap.set key value) node (root w)) w).

(** Modelled from the spec: the batch's [removeAttr( key, node )] removes the
    attribute from the node. *)
Definition Batch_removeAttr (key : string) (node : Path) : JS unit :=
  modify (fun w => set_root (alterAttributes (JSMap.delete key) node (root w)) w).

(** Modelled from the spec: emits the notification; the log keeps every
    emission in order. *)
Definition fire (e : Event) : JS unit :=
  modify (fun w => set_fired (fired w ++ [e]) w).

(** ** Live ranges *)

(** Modelled from the spec: [LiveRange.createFromRange( range )] wraps the
    range and subscribes it to the document's change notifications. *)
Definition LiveRange_createFromRange (range : Range) : JS LiveRange :=
  fun w =>
    (Normal (mkLiveRange (nextLiveId w) range),
     set_nextLiveId (S (nextLiveId w))
       (set_changeListeners (changeListeners w ++ [nextLiveId w]) w)).

(** Modelled from the spec: [liveRange.detach()] unsubscribes; detaching
    twice is a no-op. *)
Definition LiveRange_detach (lr : LiveRange) : JS unit :=
  modify (fun w =>
    set_changeListeners
      (List.filter (fun i => negb (Nat.eqb i (liveId lr))) (changeListeners w)) w).

(** ** The base Selection *)

(** Modelled from the spec: the first range of the selection
    (selection.js is not among the sources).  A selection that holds no
    range has none to give here. *)
Definition getFirstRange (w : World) : option Range :=
  match _ranges w with
  | [] => None
  | lr :: _ => Some (liveRange lr)
  end.

(** Modelled from the spec: the start of the first range. *)
Definition getFirstPosition (w : World) : option Position :=
  start <$> getFirstRange w.

(** Modelled from the spec: a collapsed selection is a single range whose
    start and end are equal (a caret). *)
Definition isCollapsed (w : World) : bool :=
  match _ranges w with
  | [lr] => Range_isCollapsed (liveRange lr)
  | _ => false
  end.

(** Modelled from the spec: [position.parent], the container node: the
    reference to it (its path) and the element found there.  Reading it off
    [null], or following a path that leads to no element, throws. *)
Definition Position_parent (position : option Position) : JS (Path * Node) :=
  fun w =>
    match position with
    | None => (Throw TypeError, w)
    | Some p =>
        match getNodeByPath (root w) (parentPath p) with
        | Some (Element name a ch) => (Normal (parentPath p, Element name a ch), w)
        | _ => (Throw TypeError, w)
        end
    end.

(** Modelled from the spec: a range is valid when both its positions address
    real locations in the current tree. *)
Definition Range_isValid (root : Node) (range : Range) : bool :=
  Position_isValid root (start range) && Position_isValid root (end_ range).

(** Modelled from the spec: [_checkRange( range )] rejects a range that is
    not valid, signalling an invalid-range condition. *)
Definition _checkRange (range : Range) : JS unit :=
  fun w =>
    if Range_isValid (root w) range
    then (Normal tt, w)
    else (Throw (CKEditorError "selection-range-invalid"), w).

(** ** DocumentSelection *)

(** [destroy()] *)
Definition destroy : JS unit :=
  ranges <- gets _ranges ;;
  forEach ranges LiveRange_detach.

(** [_pushRange( range )] *)
Definition _pushRange (range : Range) : JS unit :=
  _checkRange range ;;
  lr <- LiveRange_createFromRange range ;;
  modify (fun w => set__ranges (_ranges w ++ [lr]) w).

(** [_popRange()]: [pop()] on an empty array gives [undefined], whose
    [detach] cannot be read. *)
Definition _popRange : JS unit :=
  ranges <- gets _ranges ;;
  match List.last (List.map Some ranges) None with
  | None => throw TypeError
  | Some lr =>
      modify (fun w => set__ranges (List.removelast (_ranges w)) w) ;;
      LiveRange_detach lr
  end.

(** Modelled from the spec: [super.removeAllRanges()] clears the ranges and
    emits a change notification. *)
Definition Selection_removeAllRanges : JS unit :=
  modify (set__ranges []) ;;
  fire change_range.

(** Modelled from the spec: [super.setRanges( newRanges, isLastBackward )]
    replaces the ranges by the pushed new ones, sets the backward flag and
    emits a single change notification.  [_pushRange] is the overridden
    one. *)
Definition Selection_setRanges (newRanges : list Range) (isLastBackward : bool) : JS unit :=
  modify (set__ranges []) ;;
  forEach newRanges _pushRange ;;
  modify (set__lastRangeBackward isLastBackward) ;;
  fire change_range.

(** [removeAllRanges()] *)
Definition removeAllRanges : JS unit :=
  destroy ;;
  Selection_removeAllRanges.

(** [setRanges( newRanges, isLastBackward )] *)
Definition setRanges (newRanges : list Range) (isLastBackward : bool) : JS unit :=
  destroy ;;
  Selection_setRanges newRanges isLastBackward.

(** The loop of the generator [_getStoredAttributes]: the attributes whose
    key starts with the prefix, under their real key. *)
Fixpoint storedEntries (attrs : Entries) : Entries :=
  match attrs with
  | [] => []
  | attr :: rest =>
      if startsWith storePrefix (fst attr)
      then (substr (String.length storePrefix) (fst attr), snd attr) :: storedEntries rest
      else storedEntries rest
  end.

(** [_getStoredAttributes()], run to its end: everything the generator
    yields.  The body runs when the generator is iterated, in the world of
    that moment. *)
Definition _getStoredAttributes : JS Entries :=
  position <- gets getFirstPosition ;;
  selectionParent <- Position_parent position ;;
  collapsed <- gets isCollapsed ;;
  if collapsed && (getChildCount (snd selectionParent) =? 0)
  then ret (storedEntries (Node_getAttributes (snd selectionParent)))
  else ret [].

(** [_removeStoredAttribute( key )] *)
Definition _removeStoredAttribute (key : string) : JS unit :=
  position <- gets getFirstPosition ;;
  selectionParent <- Position_parent position ;;
  collapsed <- gets isCollapsed ;;
  if collapsed && (getChildCount (snd selectionParent) =? 0)
  then
    let storeKey := _getStoreAttributeKey key in
    enqueueChanges
      (removeStoredAttribute_change storeKey (fst selectionParent))
  else ret tt.

(** [_storeAttribute( key, value )] *)
Definition _storeAttribute (key : string) (value : Value) : JS unit :=
  position <- gets getFirstPosition ;;
  selectionParent <- Position_parent position ;;
  collapsed <- gets isCollapsed ;;
  if collapsed && (getChildCount (snd selectionParent) =? 0)
  then
    let storeKey := _getStoreAttributeKey key in
    enqueueChanges
      (storeAttribute_change storeKey value (fst selectionParent))
  else ret tt.

(** [_setStoredAttributesTo( attrs )]; [attrs] is the [Map] object itself. *)
Definition _setStoredAttributesTo (attrs : nat) : JS unit :=
  position <- gets getFirstPosition ;;
  selectionParent <- Position_parent position ;;
  collapsed <- gets isCollapsed ;;
  if collapsed && (getChildCount (snd selectionParent) =? 0)
  then
    enqueueChanges
      (setStoredAttributesTo_change attrs (fst selectionParent))
  else ret tt.

(** What each enqueued function does when the document runs it.  In the
    third, the generator is iterated while [removeAttr] deletes the entry just
    visited; a [Map] iterator is not disturbed by that, so the keys visited
    are those stored when the loop starts. *)
Definition runChange (c : Change) : JS unit :=
  match c with
  | removeStoredAttribute_change storeKey selectionParent =>
      Batch_removeAttr storeKey selectionParent
  | storeAttribute_change storeKey value selectionParent =>
      Batch_setAttr storeKey value selectionParent
  | setStoredAttributesTo_change attrs selectionParent =>
      stored <- _getStoredAttributes ;;
      forEach stored (fun attr =>
        let storeKey := _getStoreAttributeKey (fst attr) in
        Batch_removeAttr storeKey selectionParent) ;;
      entries <- gets (fun w => Map_entries w attrs) ;;
      forEach entries (fun attr =>
        let storeKey := _getStoreAttributeKey (fst attr) in
        Batch_setAttr storeKey (snd attr) selectionParent)
  end.

(** Modelled from the spec: at the close of the transaction the pending
    mutations run in the order they were enqueued. *)
Definition flushChanges : JS unit :=
  pending <- gets pendingChanges ;;
  modify (set_pendingChanges []) ;;
  forEach pending runChange.

(** [clearAttributes()] *)
Definition clearAttributes : JS unit :=
  this_attrs <- gets _attrs ;;
  Map_update this_attrs (fun _ => []) ;;
  empty <- Map_new [] ;;
  _setStoredAttributesTo empty ;;
  fire change_attribute.

(** [getAttribute( key )] *)
Definition getAttribute (key : string) (w : World) : option Value :=
  JSMap.get key (Map_entries w (_attrs w)).

(** [hasAttribute( key )] *)
Definition hasAttribute (key : string) (w : World) : bool :=
  JSMap.has key (Map_entries w (_attrs w)).

(** [removeAttribute( key )] *)
Definition removeAttribute (key : string) : JS unit :=
  this_attrs <- gets _attrs ;;
  Map_update this_attrs (JSMap.delete key) ;;
  _removeStoredAttribute key ;;
  fire change_attribute.

(** [setAttribute( key, value )] *)
Definition setAttribute (key : string) (value : Value) : JS unit :=
  this_attrs <- gets _attrs ;;
  Map_update this_attrs (JSMap.set key value) ;;
  _storeAttribute key value ;;
  fire change_attribute.

(** [setAttributesTo( attrs )] *)
Definition setAttributesTo (attrs : Entries) : JS unit :=
  m <- toMap attrs ;;
  modify (set__attrs m) ;;
  this_attrs <- gets _attrs ;;
  _setStoredAttributesTo this_attrs ;;
  fire change_attribute.

(** [getAttributes()] returns [this._attrs[ Symbol.iterator ]()], a [Map]
    iterator: the map it walks ([None] once it has reported the end) and the
    index of the next entry. *)
Record MapIterator := mkMapIterator { iteratedMap : option nat; nextIndex : nat }.

Definition getAttributes (w : World) : MapIterator :=
  mkMapIterator (Some (_attrs w)) 0.

(** [iterator.next()]: the next entry, or [None] for [{ done: true }]. *)
Definition MapIterator_next (it : MapIterator) (w : World)
  : option (string * Value) * MapIterator :=
  match iteratedMap it with
  | None => (None, it)
  | Some m =>
      match Map_entries w m !! nextIndex it with
      | Some entry => (Some entry, mkMapIterator (Some m) (S (nextIndex it)))
      | None => (None, mkMapIterator None (nextIndex it))
      end
  end.

(** [for ( let entry of iterator )] collecting what it is given: the
    iterator is its own [Symbol.iterator], so the loop goes on from where the
    iterator stands.  [None] when [fuel] calls of [next] did not reach the
    end. *)
Fixpoint iterate (fuel : nat) (it : MapIterator) (w : World)
  : option (list (string * Value)) * MapIterator :=
  match fuel with
  | O => (None, it)
  | S fuel' =>
      match MapIterator_next it w with
      | (None, it') => (Some [], it')
      | (Some entry, it') =>
          match iterate fuel' it' w with
          | (Some entries, it'') => (Some (entry :: entries), it'')
          | (None, it'') => (None, it'')
          end
      end
  end.

(** What the variable [attrs] of [_updateAttributes] holds when it is not
    [null]: the iterator over the attributes of a text node, or the generator
    object of [_getStoredAttributes], whose body has not run yet. *)
Inductive AttrsIterable :=
| AttributesIterator (entries : Entries)
| StoredAttributesGenerator.

Definition isNull {A} (x : option A) : bool :=
  match x with None => true | Some _ => false end.

(** [new Map( attrs )]: iterating the generator runs its body now. *)
Definition Map_newFrom (attrs : AttrsIterable) : JS nat :=
  match attrs with
  | AttributesIterator entries => Map_new entries
  | StoredAttributesGenerator =>
      entries <- _getStoredAttributes ;;
      Map_new entries
  end.

(** The inner function [getAttrsIfCharacter( node )]. *)
Definition getAttrsIfCharacter (node : option Node) : option AttrsIterable :=
  match node with
  | Some (CharacterProxy _ a) => Some (AttributesIterator a)
  | _ => None
  end.

(** The loop over the items of the range: the first ['TEXT'] item sets
    [attrs], the loop runs to the end all the same. *)
Definition firstTextAttrs (range : list TreeWalkerValue) : option AttrsIterable :=
  fold_left
    (fun attrs it =>
       if bool_decide (type it = TEXT) && isNull attrs
       then Some (AttributesIterator (Item_getAttributes (item it)))
       else attrs)
    range None.

(** The siblings reached from the child at [index] by [previousSibling],
    nearest first, and by [nextSibling]. *)
Definition previousSiblings (parent : Node) (index : nat) : list Node :=
  reverse (take index (Node_children parent)).
Definition nextSiblings (parent : Node) (index : nat) : list Node :=
  drop (S index) (Node_children parent).

(** The two [while ( node && !attrs )] loops, entered with [attrs] null and
    [node] not null; [chain] is what [node.previousSibling] (or
    [node.nextSibling]) gives step after step, until it gives [null]. *)
Fixpoint siblingLoop (chain : list Node) : option AttrsIterable :=
  match chain with
  | [] => None
  | node :: rest =>
      match getAttrsIfCharacter (Some node) with
      | Some attrs => Some attrs
      | None => siblingLoop rest
      end
  end.

(** The [else] branch of [_updateAttributes] (steps 2 to 6), for a position
    at [offset] in [positionParent]. *)
Definition caretAttrs (positionParent : Node) (offset : nat) : option AttrsIterable :=
  let nodeBefore := getChild positionParent (Z.of_nat offset - 1) in
  let nodeAfter := getChild positionParent (Z.of_nat offset) in
  let attrs := getAttrsIfCharacter nodeBefore in
  let attrs :=
    if isNull attrs then getAttrsIfCharacter nodeAfter else attrs in
  let attrs :=
    if isNull attrs
    then match nodeBefore with
         | Some _ => siblingLoop (previousSiblings positionParent (offset - 1))
         | None => None
         end
    else attrs in
  let attrs :=
    if isNull attrs
    then match nodeAfter with
         | Some _ => siblingLoop (nextSiblings positionParent offset)
         | None => None
         end
    else attrs in
  if isNull attrs then Some StoredAttributesGenerator else attrs.

(** [position.offset]; it cannot be read off [null]. *)
Definition Position_offset (position : option Position) : JS nat :=
  match position with
  | None => throw TypeError
  | Some p => ret (offset p)
  end.

(** The items [for ( let item of range )] goes through; [null] cannot be
    iterated. *)
Definition Range_items (range : option Range) : JS (list TreeWalkerValue) :=
  match range with
  | None => throw TypeError
  | Some r => gets (fun w => Range_iterator (root w) r)
  end.

(** [_updateAttributes()] *)
Definition _updateAttributes : JS unit :=
  position <- gets getFirstPosition ;;
  positionParent <- Position_parent position ;;
  collapsed <- gets isCollapsed ;;
  attrs <-
    (if negb collapsed
     then
       range <- gets getFirstRange ;;
       items <- Range_items range ;;
       ret (firstTextAttrs items)
     else
       offset <- Position_offset position ;;
       ret (caretAttrs (snd positionParent) offset)) ;;
  match attrs with
  | Some attrs =>
      m <- Map_newFrom attrs ;;
      modify (set__attrs m)
  | None => clearAttributes
  end ;;
  fire change_attribute.

(** The constructor: a selection of [document] without ranges, [_attrs] a
    new empty [Map]. *)
Definition DocumentSelection_new (document : Node) : World :=
  mkWorld document [] [] 0 {[ 0 := [] ]} 1 [] false 0 [].

(** The selection's attributes as the accessors show them. *)
Definition attributes (w : World) : Entries := Map_entries w (_attrs w).

(** The four operations that change attributes. *)
Inductive AttributeOperation :=
| SetAttribute (key : string) (value : Value)
| RemoveAttribute (key : string)
| SetAttributesTo (attrs : Entries)
| ClearAttributes.

Definition perform (op : AttributeOperation) : JS unit :=
  match op with
  | SetAttribute key value => setAttribute key value
  | RemoveAttribute key => removeAttribute key
  | SetAttributesTo attrs => setAttributesTo attrs
  | ClearAttributes => clearAttributes
  end.

(** ** Reading the selection's place *)

(** [this.getFirstPosition().parent] when it can be read: the reference to
    the parent element and the element. *)
Definition selectionParent (w : World) : option (Path * Node) :=
  match getFirstPosition w with
  | None => None
  | Some p =>
      match getNodeByPath (root w) (parentPath p) with
      | Some (Element name a ch) => Some (parentPath p, Element name a ch)
      | _ => None
      end
  end.

(** The condition under which the three store methods enqueue a change:
    [this.isCollapsed && selectionParent.getChildCount() === 0]. *)
Definition storeGuard (w : World) : bool :=
  match selectionParent w with
  | Some sp => isCollapsed w && (getChildCount (snd sp) =? 0)
  | None => false
  end.

(** The world a computation leaves behind. *)
Definition after {A} (m : JS A) (w : World) : World := snd (m w).

(** The change an attribute operation hands to [enqueueChanges] under the
    guard, when it starts in the world [w]; the map of the last two is the
    one the operation creates. *)
Definition scheduledChange (op : AttributeOperation) (parent : Path) (w : World) : Change :=
  match op with
  | SetAttribute key value => storeAttribute_change (_getStoreAttributeKey key) value parent
  | RemoveAttribute key => removeStoredAttribute_change (_getStoreAttributeKey key) parent
  | SetAttributesTo _ => setStoredAttributesTo_change (nextMap w) parent
  | ClearAttributes => setStoredAttributesTo_change (nextMap w) parent
  end.

(** ** The tiers in the words of the specification *)

(** A ['TEXT'] item of a walk. *)
Definition isTextItem (it : TreeWalkerValue) : bool := bool_decide (type it = TEXT).

(** The attributes of a node if it is text-bearing. *)
Definition textAttributes (node : option Node) : option Entries :=
  match node with
  | Some (CharacterProxy _ a) => Some a
  | _ => None
  end.

(** The attributes of the first text-bearing node of a list. *)
Definition firstText (nodes : list Node) : option Entries :=
  textAttributes (List.find isCharacterProxy nodes).

(** The first text-bearing node met walking along [siblings] from the node
    [from], when there is such a node to walk from. *)
Definition walkingFrom (from : option Node) (siblings : list Node) : option Entries :=
  match from with
  | Some _ => firstText siblings
  | None => None
  end.

(** What a caret at [offset] in [parent] resolves to, tier by tier: the
    sibling before, the sibling after, the first text-bearing sibling to the
    left of the one before, the first to the right of the one after, and
    last the attributes stored on the parent, [lastTier]. *)
Definition tiersWith (lastTier : Entries) (parent : Node) (offset : nat) : Entries :=
  let children := Node_children parent in
  let before := match offset with O => None | S i => children !! i end in
  let after := children !! offset in
  match textAttributes before with
  | Some a => a
  | None =>
  match textAttributes after with
  | Some a => a
  | None =>
  match walkingFrom before (reverse (take (offset - 1) children)) with
  | Some a => a
  | None =>
  match walkingFrom after (drop (S offset) children) with
  | Some a => a
  | None => lastTier
  end end end end.

(** The last tier as the code has it: the stored attributes of a parent
    without children, nothing for a parent with children. *)
Definition caretTiers (parent : Node) (offset : nat) : Entries :=
  tiersWith (if getChildCount parent =? 0
             then storedEntries (Node_getAttributes parent) else [])
            parent offset.

(** The last tier without that condition: the prefixed attributes of the
    parent, whatever it holds. *)
Definition caretTiersUnguarded (parent : Node) (offset : nat) : Entries :=
  tiersWith (storedEntries (Node_getAttributes parent)) parent offset.

(** The entries an iterable gives when [new Map] iterates it for a caret in
    [parent]. *)
Definition iterableEntries (parent : Node) (attrs : AttrsIterable) : Entries :=
  match attrs with
  | AttributesIterator entries => entries
  | StoredAttributesGenerator =>
      if getChildCount parent =? 0 then storedEntries (Node_getAttributes parent) else []
  end.

(** ** The store as it lies on the parent element *)

(** An attribute of the selection under the key the store gives it. *)
Definition storedAs (attr : string * Value) : string * Value :=
  (_getStoreAttributeKey (fst attr), snd attr).

(** The attributes of an element that are not part of the store. *)
Definition ownEntries (attrs : Entries) : Entries :=
  List.filter (fun attr => negb (startsWith storePrefix (fst attr))) attrs.

(** The attributes of the parent once the function enqueued by
    [_setStoredAttributesTo] has run with [entries] in its map: its own
    attributes, then the entries under their store keys. *)
Definition restored (parentAttrs entries : Entries) : Entries :=
  ownEntries parentAttrs ++ List.map storedAs entries.

(** The selection is a caret in the element at [parent], which has no
    children: the state in which the store is written and read. *)
Definition caretInEmptyElement (w : World) (parent : Path) : Prop :=
  isCollapsed w = true /\
  exists name a, selectionParent w = Some (parent, Element name a []).

(** ** Sample documents and selections *)

Module Scenario.

Definition bold : Entries := [("bold"%string, VBool true)].
Definition italic : Entries := [("italic"%string, VBool true)].

(** A caret at [offset] in the element at [path]. *)
Definition caretAt (path : Path) (offset : nat) : Range :=
  mkRange (mkPosition path offset) (mkPosition path offset).

(** The selection of [document] after [setRanges( ranges )]. *)
Definition selecting (document : Node) (ranges : list Range) : World :=
  after (setRanges ranges false) (DocumentSelection_new document).

(** An empty paragraph with the caret in it. *)
Definition emptyParagraph : Node :=
  Element "$root" [] [Element "paragraph" [] []].
Definition caretInEmptyParagraph : World :=
  selecting emptyParagraph [caretAt [0] 0].

(** A paragraph holding "AB" in bold, the caret after "B". *)
Definition boldText : Node :=
  Element "$root" []
    [Element "paragraph" [] [CharacterProxy "A" bold; CharacterProxy "B" bold]].
Definition caretAfterBoldText : World :=
  selecting boldText [caretAt [0] 2].

(** "Hi" without attributes followed by " W" in italic, all selected. *)
Definition mixedText : Node :=
  Element "$root" []
    [Element "paragraph" []
       [CharacterProxy "H" []; CharacterProxy "i" [];
        CharacterProxy " " italic; CharacterProxy "W" italic]].
Definition mixedTextRange : Range :=
  mkRange (mkPosition [0] 0) (mkPosition [0] 4).
Definition mixedTextSelected : World :=
  selecting mixedText [mixedTextRange].

(** "A" in bold followed by "b" in italic, both selected. *)
Definition boldThenItalic : Node :=
  Element "$root" []
    [Element "paragraph" [] [CharacterProxy "A" bold; CharacterProxy "b" italic]].
Definition boldThenItalicRange : Range :=
  mkRange (mkPosition [0] 0) (mkPosition [0] 2).
Definition boldThenItalicSelected : World :=
  selecting boldThenItalic [boldThenItalicRange].

(** An empty paragraph that carries a stored bold. *)
Definition storedBold : Node :=
  Element "$root" []
    [Element "paragraph" [("selection:bold"%string, VBool true)] []].
Definition caretInStoredBold : World :=
  selecting storedBold [caretAt [0] 0].

(** A paragraph that carries a stored bold and now holds an image. *)
Definition imageParagraph : Node :=
  Element "$root" []
    [Element "paragraph" [("selection:bold"%string, VBool true)]
       [Element "image" [] []]].
Definition caretBeforeImage : World :=
  selecting imageParagraph [caretAt [0] 0].
Definition imageRange : Range :=
  mkRange (mkPosition [0] 0) (mkPosition [0] 1).
Definition imageSelected : World :=
  selecting imageParagraph [imageRange].

(** The caret after the bold text, once [setAttributesTo] has set bold on
    the selection. *)
Definition boldSelection : World :=
  after (setAttributesTo bold) caretAfterBoldText.

End Scenario.

(** ** Operations on the map and on the store, side by side *)

(** What an attribute operation does to the entries of a map. *)
Definition applyOperation (op : AttributeOperation) (m : Entries) : Entries :=
  match op with
  | SetAttribute key value => JSMap.set key value m
  | RemoveAttribute key => JSMap.delete key m
  | SetAttributesTo attrs => JSMap.fromIterable attrs
  | ClearAttributes => []
  end.

(** An attribute operation followed by the run of the pending changes. *)
Definition performAndFlush (op : AttributeOperation) : JS unit :=
  perform op ;; flushChanges.

(** Nothing is pending, the selection is a caret in the element at
    [parent], which has no children, and the attributes stored on that
    element are the attributes of the selection. *)
Definition inSync (w : World) (parent : Path) : Prop :=
  pendingChanges w = [] /\
  isCollapsed w = true /\
  exists name a,
    selectionParent w = Some (parent, Element name a []) /\
    storedEntries a = attributes w.

(** What the change scheduled by an operation does to the attributes of the
    parent when it runs. *)
Definition storeEffect (op : AttributeOperation) (a : Entries) : Entries :=
  match op with
  | SetAttribute key value => JSMap.set (_getStoreAttributeKey key) value a
  | RemoveAttribute key => JSMap.delete (_getStoreAttributeKey key) a
  | SetAttributesTo attrs => restored a (JSMap.fromIterable attrs)
  | ClearAttributes => restored a []
  end.

(** What a pass resolves to, read off the tree and the ranges alone: the
    tiers for a caret, the first ['TEXT'] item of the first range
    otherwise. *)
Definition resolved (w : World) : Entries :=
  match selectionParent w, getFirstRange w with
  | Some sp, Some range =>
      if isCollapsed w
      then JSMap.fromIterable (caretTiers (snd sp) (offset (start range)))
      else match List.find isTextItem (Range_iterator (root w) range) with
           | Some it => JSMap.fromIterable (Item_getAttributes (item it))
           | None => []
           end
  | _, _ => []
  end.

(** The subscriptions left when each of [ranges] has been detached. *)
Definition withoutRanges (ranges : list LiveRange) (listeners : list nat) : list nat :=
  List.filter (fun i => negb (existsb (fun lr => Nat.eqb i (liveId lr)) ranges)) listeners.

(** The selection with the image selected, once [setAttributesTo] has set
    italic on it. *)
Definition italicOverImage : World :=
  after (setAttributesTo Scenario.italic) Scenario.imageSelected.

(** [_pushRange( range )] followed by [_popRange()]. *)
Definition pushThenPop (range : Range) : JS unit :=
  _pushRange range ;; _popRange.

(** [_updateAttributes()] run twice. *)
Definition updateTwice : JS unit :=
  _updateAttributes ;; _updateAttributes.

(** * Properties *)

(** ** [Map] *)

Lemma JSMap_set_fresh key value (m : Entries) :
  key ∉ JSMap.keys m -> JSMap.set key value m = m ++ [(key, value)].
Proof.
  induction m as [|[k v] m IH]; simpl; intros Hnot; [reflexivity|].
  apply not_elem_of_cons in Hnot as [Hne Hnot].
  destruct (String.eqb_spec k key) as [->|_]; [contradiction|].
  now rewrite IH.
Qed.

Lemma JSMap_set_idempotent key value (m : Entries) :
  JSMap.set key value (JSMap.set key value m) = JSMap.set key value m.
Proof.
  induction m as [|[k v] m IH]; simpl.
  - now rewrite String.eqb_refl.
  - destruct (String.eqb_spec k key) as [->|Hne]; simpl.
    + now rewrite String.eqb_refl.
    + destruct (String.eqb_spec k key); [contradiction|]. now rewrite IH.
Qed.

Lemma JSMap_keys_set key value (m : Entries) :
  JSMap.keys (JSMap.set key value m) =
  if decide (key ∈ JSMap.keys m) then JSMap.keys m else JSMap.keys m ++ [key].
Proof.
  induction m as [|[k v] m IH]; simpl.
  - reflexivity.
  - destruct (String.eqb_spec k key) as [->|Hne]; simpl.
    + destruct (decide (key ∈ key :: JSMap.keys m)) as [_|H]; [reflexivity|].
      exfalso. apply H. now left.
    + rewrite IH.
      destruct (decide (key ∈ JSMap.keys m)) as [Hin|Hnin];
        destruct (decide (key ∈ k :: JSMap.keys m)) as [Hin'|Hnin'];
        try reflexivity.
      * exfalso. apply Hnin'. now right.
      * exfalso. apply elem_of_cons in Hin' as [->|?]; contradiction.
Qed.

Lemma JSMap_set_NoDup key value (m : Entries) :
  NoDup (JSMap.keys m) -> NoDup (JSMap.keys (JSMap.set key value m)).
Proof.
  intros Hm. rewrite JSMap_keys_set.
  case_decide as Hnin; [assumption|].
  apply NoDup_app. repeat split; [assumption| |apply NoDup_singleton].
  intros x Hx Hx'. apply list_elem_of_singleton in Hx'. now subst.
Qed.

Lemma fold_set_NoDup (pairs acc : Entries) :
  NoDup (JSMap.keys acc) ->
  NoDup (JSMap.keys (fold_left (fun m e => JSMap.set (fst e) (snd e) m) pairs acc)).
Proof.
  revert acc. induction pairs as [|[k v] pairs IH]; simpl; intros acc Hacc; [assumption|].
  apply IH. now apply JSMap_set_NoDup.
Qed.

(** A [Map] never holds a key twice. *)
Lemma fromIterable_NoDup (pairs : Entries) :
  NoDup (JSMap.keys (JSMap.fromIterable pairs)).
Proof. apply fold_set_NoDup. constructor. Qed.

Lemma fold_set_fresh (pairs acc : Entries) :
  NoDup (JSMap.keys (acc ++ pairs)) ->
  fold_left (fun m e => JSMap.set (fst e) (snd e) m) pairs acc = acc ++ pairs.
Proof.
  revert acc. induction pairs as [|[k v] pairs IH]; simpl; intros acc Hnd.
  - now rewrite List.app_nil_r.
  - rewrite JSMap_set_fresh.
    + rewrite IH; rewrite <- List.app_assoc; [reflexivity|exact Hnd].
    + unfold JSMap.keys in *. rewrite List.map_app in Hnd. simpl in Hnd.
      apply NoDup_app in Hnd as (_ & Hdisj & _). intros Hin.
      apply (Hdisj _ Hin). now left.
Qed.

(** Pairs with distinct keys make the map that lists them in their order. *)
Lemma fromIterable_distinct (pairs : Entries) :
  NoDup (JSMap.keys pairs) -> JSMap.fromIterable pairs = pairs.
Proof. intros H. unfold JSMap.fromIterable. now rewrite fold_set_fresh. Qed.

Lemma fromIterable_idempotent (pairs : Entries) :
  JSMap.fromIterable (JSMap.fromIterable pairs) = JSMap.fromIterable pairs.
Proof. apply fromIterable_distinct, fromIterable_NoDup. Qed.

(** ** Frame lemmas for the reads *)

Lemma selectionParent_frame (w w' : World) :
  root w' = root w -> _ranges w' = _ranges w -> selectionParent w' = selectionParent w.
Proof.
  intros Hr Hs. unfold selectionParent, getFirstPosition, getFirstRange.
  now rewrite Hr, Hs.
Qed.

Lemma isCollapsed_frame (w w' : World) :
  _ranges w' = _ranges w -> isCollapsed w' = isCollapsed w.
Proof. intros Hs. unfold isCollapsed. now rewrite Hs. Qed.

Lemma Position_parent_run (w : World) (sp : Path * Node) :
  selectionParent w = Some sp ->
  Position_parent (getFirstPosition w) w = (Normal sp, w).
Proof.
  unfold selectionParent, Position_parent.
  destruct (getFirstPosition w) as [p|]; [|discriminate].
  destruct (getNodeByPath (root w) (parentPath p)) as [[c a|name a ch]|]; try discriminate.
  now intros [= <-].
Qed.

Lemma storeGuard_frame (w w' : World) :
  root w' = root w -> _ranges w' = _ranges w -> storeGuard w' = storeGuard w.
Proof.
  intros Hr Hs. unfold storeGuard.
  now rewrite (selectionParent_frame _ _ Hr Hs), (isCollapsed_frame _ _ Hs).
Qed.

Lemma storeGuard_eq (w : World) (sp : Path * Node) :
  selectionParent w = Some sp ->
  storeGuard w = isCollapsed w && (getChildCount (snd sp) =? 0).
Proof. intros H. unfold storeGuard. now rewrite H. Qed.

#[local] Arguments storeGuard : simpl never.
#[local] Arguments selectionParent : simpl never.
#[local] Arguments isCollapsed : simpl never.

(** ** The three store methods *)

Section StoreMethods.
(** [w0] is a world with the tree and the ranges of [w]: the methods read
    nothing else. *)
Variables (w0 w : World) (sp : Path * Node).
Hypothesis Hsp : selectionParent w0 = Some sp.
Hypothesis Hroot : root w = root w0.
Hypothesis Hranges : _ranges w = _ranges w0.

Lemma Position_parent_here : Position_parent (getFirstPosition w) w = (Normal sp, w).
Proof.
  apply Position_parent_run. now rewrite (selectionParent_frame _ _ Hroot Hranges).
Qed.

Lemma guard_here : isCollapsed w && (getChildCount (snd sp) =? 0) = storeGuard w0.
Proof.
  rewrite <- (storeGuard_frame _ _ Hroot Hranges). symmetry. apply storeGuard_eq.
  now rewrite (selectionParent_frame _ _ Hroot Hranges).
Qed.

Lemma _storeAttribute_run key value :
  _storeAttribute key value w =
  (Normal tt,
   if storeGuard w0
   then set_pendingChanges
          (pendingChanges w ++ [storeAttribute_change (_getStoreAttributeKey key) value (fst sp)]) w
   else w).
Proof.
  unfold _storeAttribute, bind, gets. rewrite Position_parent_here, guard_here.
  now destruct (storeGuard w0).
Qed.

Lemma _removeStoredAttribute_run key :
  _removeStoredAttribute key w =
  (Normal tt,
   if storeGuard w0
   then set_pendingChanges
          (pendingChanges w ++ [removeStoredAttribute_change (_getStoreAttributeKey key) (fst sp)]) w
   else w).
Proof.
  unfold _removeStoredAttribute, bind, gets. rewrite Position_parent_here, guard_here.
  now destruct (storeGuard w0).
Qed.

Lemma _setStoredAttributesTo_run attrs :
  _setStoredAttributesTo attrs w =
  (Normal tt,
   if storeGuard w0
   then set_pendingChanges
          (pendingChanges w ++ [setStoredAttributesTo_change attrs (fst sp)]) w
   else w).
Proof.
  unfold _setStoredAttributesTo, bind, gets. rewrite Position_parent_here, guard_here.
  now destruct (storeGuard w0).
Qed.

Lemma _getStoredAttributes_run :
  _getStoredAttributes w =
  (Normal (if storeGuard w0 then storedEntries (Node_getAttributes (snd sp)) else []), w).
Proof.
  unfold _getStoredAttributes, bind, gets. rewrite Position_parent_here, guard_here.
  now destruct (storeGuard w0).
Qed.
End StoreMethods.

(** ** The four attribute operations *)


Lemma attributes_insert (w : World) (m : Entries) (w' : World) :
  maps w' = <[_attrs w' := m]> (maps w) -> attributes w' = m.
Proof.
  intros H. unfold attributes, Map_entries. now rewrite H, lookup_insert_eq.
Qed.

Lemma setAttribute_run (w : World) (sp : Path * Node) key value :
  selectionParent w = Some sp ->
  exists w',
    setAttribute key value w = (Normal tt, w') /\
    attributes w' = JSMap.set key value (attributes w) /\
    selectionParent w' = Some sp /\
    fired w' = fired w ++ [change_attribute].
Proof.
  intros Hsp.
  unfold setAttribute, bind, gets, Map_update, modify, fire. simpl.
  rewrite (_storeAttribute_run w _ sp) by (assumption || reflexivity).
  eexists; split; [reflexivity|].
  destruct (storeGuard w); simpl; (split; [|split]);
    try reflexivity;
    try (erewrite selectionParent_frame; [exact Hsp|reflexivity..]);
    apply (attributes_insert w); reflexivity.
Qed.



(** C7.  Two [setAttribute( key, value )] calls in a row leave the
    attribute map as one call does (the map after one call is the map before
    with [key] set to [value]), and each of the two calls fires
    [change:attribute] once, the second although the map does not change. *)
Theorem setAttribute_idempotent_always_fires
    (w : World) (sp : Path * Node) (key : string) (value : Value) :
  selectionParent w = Some sp ->
  exists w1 w2,
    setAttribute key value w = (Normal tt, w1) /\
    setAttribute key value w1 = (Normal tt, w2) /\
    attributes w1 = JSMap.set key value (attributes w) /\
    attributes w2 = attributes w1 /\
    fired w1 = fired w ++ [change_attribute] /\
    fired w2 = fired w1 ++ [change_attribute].
Proof.
  intros Hsp.
  destruct (setAttribute_run w sp key value Hsp) as (w1 & Hrun1 & Ha1 & Hsp1 & Hf1).
  destruct (setAttribute_run w1 sp key value Hsp1) as (w2 & Hrun2 & Ha2 & _ & Hf2).
  exists w1, w2. repeat split; try assumption.
  now rewrite Ha2, Ha1, JSMap_set_idempotent.
Qed.

Lemma setAttribute_idempotent_always_fires_witness :
  selectionParent Scenario.caretInEmptyParagraph = Some ([0], Element "paragraph" [] []) /\
  exists w1 w2,
    setAttribute "bold" (VBool true) Scenario.caretInEmptyParagraph = (Normal tt, w1) /\
    setAttribute "bold" (VBool true) w1 = (Normal tt, w2) /\
    attributes w1 = JSMap.set "bold" (VBool true) (attributes Scenario.caretInEmptyParagraph) /\
    attributes w2 = attributes w1 /\
    fired w1 = fired Scenario.caretInEmptyParagraph ++ [change_attribute] /\
    fired w2 = fired w1 ++ [change_attribute].
Proof.
  split; [reflexivity|].
  apply (setAttribute_idempotent_always_fires Scenario.caretInEmptyParagraph
           ([0], Element "paragraph" [] [])).
  reflexivity.
Defined.

(** ** The resolution pass *)

Lemma selectionParent_inv (w : World) (sp : Path * Node) :
  selectionParent w = Some sp ->
  exists range,
    getFirstRange w = Some range /\
    getFirstPosition w = Some (start range) /\
    fst sp = parentPath (start range) /\
    getNodeByPath (root w) (fst sp) = Some (snd sp).
Proof.
  unfold selectionParent, getFirstPosition.
  destruct (getFirstRange w) as [range|]; [|discriminate]. simpl.
  destruct (getNodeByPath (root w) (parentPath (start range))) as [[c a|name a ch]|] eqn:E;
    try discriminate.
  intros [= <-]. exists range. auto.
Qed.

Lemma firstTextAttrs_found (items : list TreeWalkerValue) (attrs : AttrsIterable) :
  fold_left
    (fun attrs it =>
       if bool_decide (type it = TEXT) && isNull attrs
       then Some (AttributesIterator (Item_getAttributes (item it)))
       else attrs)
    items (Some attrs) = Some attrs.
Proof.
  induction items as [|it items IH]; simpl; [reflexivity|].
  now rewrite andb_false_r.
Qed.

(** The loop keeps the attributes of the first ['TEXT'] item. *)
Lemma firstTextAttrs_find (items : list TreeWalkerValue) :
  firstTextAttrs items =
  match List.find isTextItem items with
  | Some it => Some (AttributesIterator (Item_getAttributes (item it)))
  | None => None
  end.
Proof.
  unfold firstTextAttrs, isTextItem.
  induction items as [|it items IH]; simpl; [reflexivity|].
  destruct (bool_decide (type it = TEXT)); simpl.
  - apply firstTextAttrs_found.
  - exact IH.
Qed.

Lemma siblingLoop_firstText (chain : list Node) :
  siblingLoop chain =
  match firstText chain with
  | Some a => Some (AttributesIterator a)
  | None => None
  end.
Proof.
  unfold firstText.
  induction chain as [|[c a|name a ch] chain IH]; simpl; [reflexivity|reflexivity|exact IH].
Qed.

Lemma caretAttrs_not_null (parent : Node) (offset : nat) :
  isNull (caretAttrs parent offset) = false.
Proof.
  unfold caretAttrs.
  repeat match goal with
         | |- context [if isNull ?x then _ else _] => destruct x eqn:?; simpl
         end; reflexivity.
Qed.

(** The pass, once position, parent and range are read. *)
Lemma _updateAttributes_run (w : World) (sp : Path * Node) (range : Range) :
  selectionParent w = Some sp ->
  getFirstRange w = Some range ->
  _updateAttributes w =
  ((match (if negb (isCollapsed w)
           then firstTextAttrs (Range_iterator (root w) range)
           else caretAttrs (snd sp) (offset (start range))) with
    | Some attrs => m <- Map_newFrom attrs ;; modify (set__attrs m)
    | None => clearAttributes
    end) ;; fire change_attribute) w.
Proof.
  intros Hsp Hrange.
  unfold _updateAttributes. unfold bind at 1. unfold gets at 1.
  unfold bind at 1. rewrite (Position_parent_run _ _ Hsp).
  unfold bind at 1. unfold gets at 1.
  unfold bind at 1. unfold bind at 2.
  destruct (isCollapsed w); simpl.
  - unfold bind at 3. unfold getFirstPosition. rewrite Hrange. reflexivity.
  - unfold bind, gets, Range_items, ret. rewrite Hrange. reflexivity.
Qed.

(** The branch [this._attrs = new Map( attrs )], followed by the final
    [fire]. *)
Lemma replace_run (w : World) (sp : Path * Node) (attrs : AttrsIterable) :
  selectionParent w = Some sp ->
  exists w',
    ((m <- Map_newFrom attrs ;; modify (set__attrs m)) ;; fire change_attribute) w
      = (Normal tt, w') /\
    root w' = root w /\
    pendingChanges w' = pendingChanges w /\
    _ranges w' = _ranges w /\
    fired w' = fired w ++ [change_attribute] /\
    _attrs w' = nextMap w /\
    attributes w' =
      JSMap.fromIterable
        (match attrs with
         | AttributesIterator entries => entries
         | StoredAttributesGenerator =>
             if storeGuard w then storedEntries (Node_getAttributes (snd sp)) else []
         end).
Proof.
  intros Hsp. destruct attrs as [entries|]; simpl.
  - unfold bind, Map_new, modify, fire. simpl.
    eexists; split; [reflexivity|]. simpl. repeat split.
    apply (attributes_insert w). reflexivity.
  - unfold bind. rewrite (_getStoredAttributes_run w w sp) by (assumption || reflexivity).
    unfold Map_new, modify, fire. simpl.
    eexists; split; [reflexivity|]. simpl. repeat split.
    apply (attributes_insert w). reflexivity.
Qed.

(** The branch [this.clearAttributes()], followed by the final [fire], when
    the selection is not collapsed. *)
Lemma clear_run (w : World) (sp : Path * Node) :
  selectionParent w = Some sp ->
  isCollapsed w = false ->
  exists w',
    (clearAttributes ;; fire change_attribute) w = (Normal tt, w') /\
    root w' = root w /\
    pendingChanges w' = pendingChanges w /\
    _ranges w' = _ranges w /\
    fired w' = fired w ++ [change_attribute; change_attribute] /\
    _attrs w' = _attrs w /\
    attributes w' = [].
Proof.
  intros Hsp Hnc.
  assert (Hguard : storeGuard w = false) by (rewrite (storeGuard_eq _ _ Hsp), Hnc; reflexivity).
  unfold clearAttributes, bind, gets, Map_update, Map_new, modify, fire. simpl.
  rewrite (_setStoredAttributesTo_run w _ sp) by (assumption || reflexivity).
  rewrite Hguard. simpl.
  eexists; split; [reflexivity|]. simpl. repeat split.
  - now rewrite <- List.app_assoc.
  - unfold attributes, Map_entries. simpl.
    destruct (decide (nextMap w = _attrs w)) as [->|Hne].
    + now rewrite lookup_insert_eq.
    + now rewrite lookup_insert_ne, lookup_insert_eq.
Qed.

(** C1.  For a selection that is not collapsed, [_updateAttributes]
    completes and leaves as the selection's attributes the map made of the
    attributes of the first ['TEXT'] item met when the first range is walked
    in document order (those attributes themselves when their keys are
    distinct), whatever comes after that item; when the walk meets no
    ['TEXT'] item the attributes are empty, whatever the siblings of the
    position and the attributes stored on its parent.  The tree and the
    pending changes are left as they were. *)
Theorem updateAttributes_range_first_text
    (w : World) (sp : Path * Node) (range : Range) :
  selectionParent w = Some sp ->
  getFirstRange w = Some range ->
  isCollapsed w = false ->
  exists w',
    _updateAttributes w = (Normal tt, w') /\
    root w' = root w /\
    pendingChanges w' = pendingChanges w /\
    match List.find isTextItem (Range_iterator (root w) range) with
    | Some it =>
        attributes w' = JSMap.fromIterable (Item_getAttributes (item it)) /\
        (NoDup (JSMap.keys (Item_getAttributes (item it))) ->
         attributes w' = Item_getAttributes (item it))
    | None => attributes w' = []
    end.
Proof.
  intros Hsp Hrange Hnc.
  rewrite (_updateAttributes_run w sp range Hsp Hrange), Hnc. simpl negb. cbv iota.
  rewrite firstTextAttrs_find.
  destruct (List.find isTextItem (Range_iterator (root w) range)) as [it|].
  - destruct (replace_run w sp (AttributesIterator (Item_getAttributes (item it))) Hsp)
      as (w' & Hrun & Hr & Hp & _ & _ & _ & Ha).
    exists w'. repeat split; try assumption.
    intros Hnd. now rewrite Ha, fromIterable_distinct.
  - destruct (clear_run w sp Hsp Hnc) as (w' & Hrun & Hr & Hp & _ & _ & _ & Ha).
    exists w'. repeat split; assumption.
Qed.

Lemma updateAttributes_range_first_text_witness :
  selectionParent Scenario.boldThenItalicSelected
    = Some ([0], Element "paragraph" []
                   [CharacterProxy "A" Scenario.bold; CharacterProxy "b" Scenario.italic]) /\
  getFirstRange Scenario.boldThenItalicSelected = Some Scenario.boldThenItalicRange /\
  isCollapsed Scenario.boldThenItalicSelected = false /\
  exists w',
    _updateAttributes Scenario.boldThenItalicSelected = (Normal tt, w') /\
    root w' = root Scenario.boldThenItalicSelected /\
    pendingChanges w' = pendingChanges Scenario.boldThenItalicSelected /\
    attributes w' = JSMap.fromIterable [("bold"%string, VBool true)] /\
    (NoDup (JSMap.keys [("bold"%string, VBool true)]) ->
     attributes w' = [("bold"%string, VBool true)]).
Proof.
  split; [reflexivity|]. split; [reflexivity|]. split; [reflexivity|].
  apply (updateAttributes_range_first_text Scenario.boldThenItalicSelected
           ([0], Element "paragraph" []
                   [CharacterProxy "A" Scenario.bold; CharacterProxy "b" Scenario.italic])
           Scenario.boldThenItalicRange);
    reflexivity.
Defined.

(** The pass for a caret. *)
Lemma updateAttributes_caret_run (w : World) (sp : Path * Node) (range : Range) :
  selectionParent w = Some sp ->
  getFirstRange w = Some range ->
  isCollapsed w = true ->
  exists w' attrs,
    _updateAttributes w = (Normal tt, w') /\
    caretAttrs (snd sp) (offset (start range)) = Some attrs /\
    root w' = root w /\
    pendingChanges w' = pendingChanges w /\
    fired w' = fired w ++ [change_attribute] /\
    _attrs w' = nextMap w /\
    attributes w' = JSMap.fromIterable (iterableEntries (snd sp) attrs).
Proof.
  intros Hsp Hrange Hc.
  rewrite (_updateAttributes_run w sp range Hsp Hrange), Hc. simpl negb. cbv iota.
  pose proof (caretAttrs_not_null (snd sp) (offset (start range))) as Hnn.
  destruct (caretAttrs (snd sp) (offset (start range))) as [attrs|]; [|discriminate].
  destruct (replace_run w sp attrs Hsp) as (w' & Hrun & Hr & Hp & _ & Hf & Hm & Ha).
  exists w', attrs. repeat split; try assumption.
  rewrite Ha. unfold iterableEntries.
  now rewrite (storeGuard_eq _ _ Hsp), Hc.
Qed.

Lemma getChild_before (parent : Node) (offset : nat) :
  getChild parent (Z.of_nat offset - 1) =
  match offset with O => None | S i => Node_children parent !! i end.
Proof.
  unfold getChild. destruct offset as [|i].
  - reflexivity.
  - replace (Z.of_nat (S i) - 1)%Z with (Z.of_nat i) by lia.
    destruct (Z.ltb_spec (Z.of_nat i) 0); [lia|]. now rewrite Nat2Z.id.
Qed.

Lemma getChild_after (parent : Node) (offset : nat) :
  getChild parent (Z.of_nat offset) = Node_children parent !! offset.
Proof.
  unfold getChild. destruct (Z.ltb_spec (Z.of_nat offset) 0); [lia|]. now rewrite Nat2Z.id.
Qed.

Lemma getAttrsIfCharacter_text (node : option Node) :
  getAttrsIfCharacter node =
  match textAttributes node with
  | Some a => Some (AttributesIterator a)
  | None => None
  end.
Proof. destruct node as [[c a|name a ch]|]; reflexivity. Qed.

(** The code's steps 2 to 6 compute the five tiers. *)
Lemma caretAttrs_tiers (parent : Node) (offset : nat) :
  iterableEntries parent <$> caretAttrs parent offset = Some (caretTiers parent offset).
Proof.
  unfold caretAttrs, caretTiers, tiersWith, walkingFrom.
  rewrite getChild_before, getChild_after, !getAttrsIfCharacter_text, !siblingLoop_firstText.
  unfold previousSiblings, nextSiblings.
  set (children := Node_children parent).
  set (before := match offset with O => None | S i => children !! i end).
  destruct (textAttributes before) as [a|]; simpl; [reflexivity|].
  destruct (textAttributes (children !! offset)) as [a|]; simpl; [reflexivity|].
  destruct before as [nb|].
  - destruct (firstText (reverse (take (offset - 1) children))) as [a|]; simpl; [reflexivity|].
    destruct (children !! offset) as [na|]; [|reflexivity].
    destruct (firstText (drop (S offset) children)) as [a|]; reflexivity.
  - simpl. destruct (children !! offset) as [na|]; [|reflexivity].
    destruct (firstText (drop (S offset) children)) as [a|]; reflexivity.
Qed.

(** C10.  For a collapsed selection, [_updateAttributes] completes, the
    variable [attrs] is never null when the final test is reached (the
    generator of the store tier is an object even when it yields nothing), so
    [clearAttributes] is not called: the pass enqueues no change and leaves
    the tree as it was, fires once, and puts in [_attrs] a new map made of
    what the iterable yields -- empty when the store yields nothing. *)
Theorem updateAttributes_caret_never_writes_store
    (w : World) (sp : Path * Node) (range : Range) :
  selectionParent w = Some sp ->
  getFirstRange w = Some range ->
  isCollapsed w = true ->
  exists w' attrs,
    _updateAttributes w = (Normal tt, w') /\
    caretAttrs (snd sp) (offset (start range)) = Some attrs /\
    root w' = root w /\
    pendingChanges w' = pendingChanges w /\
    fired w' = fired w ++ [change_attribute] /\
    _attrs w' = nextMap w /\
    attributes w' = JSMap.fromIterable (iterableEntries (snd sp) attrs).
Proof. exact (updateAttributes_caret_run w sp range). Qed.

Lemma updateAttributes_caret_never_writes_store_witness :
  selectionParent Scenario.caretInEmptyParagraph = Some ([0], Element "paragraph" [] []) /\
  getFirstRange Scenario.caretInEmptyParagraph = Some (Scenario.caretAt [0] 0) /\
  isCollapsed Scenario.caretInEmptyParagraph = true /\
  exists w' attrs,
    _updateAttributes Scenario.caretInEmptyParagraph = (Normal tt, w') /\
    caretAttrs (Element "paragraph" [] []) 0 = Some attrs /\
    root w' = root Scenario.caretInEmptyParagraph /\
    pendingChanges w' = pendingChanges Scenario.caretInEmptyParagraph /\
    fired w' = fired Scenario.caretInEmptyParagraph ++ [change_attribute] /\
    _attrs w' = nextMap Scenario.caretInEmptyParagraph /\
    attributes w' = JSMap.fromIterable (iterableEntries (Element "paragraph" [] []) attrs).
Proof.
  split; [reflexivity|]. split; [reflexivity|]. split; [reflexivity|].
  apply (updateAttributes_caret_never_writes_store Scenario.caretInEmptyParagraph
           ([0], Element "paragraph" [] []) (Scenario.caretAt [0] 0));
    reflexivity.
Defined.

(** C2, as stated, fails: the caret before the image of a paragraph that
    holds nothing but the image has no text-bearing sibling on either side,
    the paragraph carries a stored bold, and the pass leaves no attributes:
    the last tier is not the prefixed attributes of the parent. *)
Lemma caret_store_tier_counterexample :
  isCollapsed Scenario.caretBeforeImage = true /\
  selectionParent Scenario.caretBeforeImage
    = Some ([0], Element "paragraph" [("selection:bold"%string, VBool true)]
                   [Element "image" [] []]) /\
  caretTiersUnguarded
    (Element "paragraph" [("selection:bold"%string, VBool true)] [Element "image" [] []]) 0
    = [("bold"%string, VBool true)] /\
  attributes (after _updateAttributes Scenario.caretBeforeImage) = [] /\
  attributes (after _updateAttributes Scenario.caretBeforeImage)
    <> JSMap.fromIterable
         (caretTiersUnguarded
            (Element "paragraph" [("selection:bold"%string, VBool true)]
               [Element "image" [] []]) 0).
Proof.
  split; [reflexivity|]. split; [reflexivity|]. split; [reflexivity|].
  split; [reflexivity|]. discriminate.
Qed.

(** C2 (amended).  For a collapsed selection, [_updateAttributes] completes
    and leaves the map made of the first of these that exists: the
    attributes of the sibling just before the caret if it is text-bearing;
    those of the sibling just after if it is; those of the first
    text-bearing sibling found walking left from the one before; those of
    the first text-bearing sibling found walking right from the one after;
    and last, when the parent has no children, its attributes under the
    store prefix with the prefix taken off, and nothing when the parent has
    children. *)
Theorem updateAttributes_caret_tiers
    (w : World) (sp : Path * Node) (range : Range) :
  selectionParent w = Some sp ->
  getFirstRange w = Some range ->
  isCollapsed w = true ->
  exists w',
    _updateAttributes w = (Normal tt, w') /\
    attributes w' = JSMap.fromIterable (caretTiers (snd sp) (offset (start range))).
Proof.
  intros Hsp Hrange Hc.
  destruct (updateAttributes_caret_run w sp range Hsp Hrange Hc)
    as (w' & attrs & Hrun & Hattrs & _ & _ & _ & _ & Ha).
  exists w'. split; [assumption|].
  pose proof (caretAttrs_tiers (snd sp) (offset (start range))) as Ht.
  rewrite Hattrs in Ht. simpl in Ht. injection Ht as Ht. now rewrite Ha, Ht.
Qed.

Lemma updateAttributes_caret_tiers_witness :
  selectionParent Scenario.caretInStoredBold
    = Some ([0], Element "paragraph" [("selection:bold"%string, VBool true)] []) /\
  getFirstRange Scenario.caretInStoredBold = Some (Scenario.caretAt [0] 0) /\
  isCollapsed Scenario.caretInStoredBold = true /\
  exists w',
    _updateAttributes Scenario.caretInStoredBold = (Normal tt, w') /\
    attributes w' = [("bold"%string, VBool true)].
Proof.
  split; [reflexivity|]. split; [reflexivity|]. split; [reflexivity|].
  apply (updateAttributes_caret_tiers Scenario.caretInStoredBold
           ([0], Element "paragraph" [("selection:bold"%string, VBool true)] [])
           (Scenario.caretAt [0] 0)); reflexivity.
Defined.

(** How often a pass fires [change:attribute]: twice when it goes through
    [clearAttributes], which fires by itself, once otherwise. *)
Lemma updateAttributes_fired (w : World) (sp : Path * Node) (range : Range) :
  selectionParent w = Some sp ->
  getFirstRange w = Some range ->
  exists w',
    _updateAttributes w = (Normal tt, w') /\
    fired w' =
      fired w ++
      (if negb (isCollapsed w) && isNull (List.find isTextItem (Range_iterator (root w) range))
       then [change_attribute; change_attribute]
       else [change_attribute]).
Proof.
  intros Hsp Hrange. destruct (isCollapsed w) eqn:Hc.
  - destruct (updateAttributes_caret_run w sp range Hsp Hrange Hc)
      as (w' & attrs & Hrun & _ & _ & _ & Hf & _).
    exists w'. now split.
  - rewrite (_updateAttributes_run w sp range Hsp Hrange), Hc. simpl negb. cbv iota.
    rewrite firstTextAttrs_find.
    destruct (List.find isTextItem (Range_iterator (root w) range)) as [it|]; simpl.
    + destruct (replace_run w sp (AttributesIterator (Item_getAttributes (item it))) Hsp)
        as (w' & Hrun & _ & _ & _ & Hf & _).
      exists w'. now split.
    + destruct (clear_run w sp Hsp Hc) as (w' & Hrun & _ & _ & _ & Hf & _).
      exists w'. now split.
Qed.

(** C3.  The pass does not fire exactly once when it clears: for the
    selection of an image alone (not collapsed, no ['TEXT'] item in the
    range) [_updateAttributes] completes, leaves no attributes, and has fired
    [change:attribute] twice, once inside [clearAttributes] and once at its
    own end. *)
Theorem updateAttributes_clear_fires_twice :
  isCollapsed Scenario.imageSelected = false /\
  getFirstRange Scenario.imageSelected = Some Scenario.imageRange /\
  List.find isTextItem (Range_iterator (root Scenario.imageSelected) Scenario.imageRange) = None /\
  exists w',
    _updateAttributes Scenario.imageSelected = (Normal tt, w') /\
    attributes w' = [] /\
    fired w' = fired Scenario.imageSelected ++ [change_attribute; change_attribute].
Proof.
  split; [reflexivity|]. split; [reflexivity|]. split; [reflexivity|].
  eexists. split; [reflexivity|]. split; reflexivity.
Qed.

(** ** The iterator of [getAttributes] *)

Lemma iterate_from (w : World) (m : nat) (fuel i : nat) :
  i <= length (Map_entries w m) ->
  length (Map_entries w m) - i < fuel ->
  iterate fuel (mkMapIterator (Some m) i) w =
  (Some (drop i (Map_entries w m)), mkMapIterator None (length (Map_entries w m))).
Proof.
  revert i. induction fuel as [|fuel IH]; intros i Hi Hfuel; [lia|].
  simpl. unfold MapIterator_next. simpl.
  destruct (Map_entries w m !! i) as [entry|] eqn:E.
  - assert (i < length (Map_entries w m)) by (eapply lookup_lt_Some; eassumption).
    rewrite IH by lia.
    now rewrite (drop_S _ _ _ E).
  - apply lookup_ge_None in E. assert (i = length (Map_entries w m)) as -> by lia.
    now rewrite drop_all.
Qed.

Lemma iterate_done (w : World) (fuel i : nat) :
  0 < fuel ->
  iterate fuel (mkMapIterator None i) w = (Some [], mkMapIterator None i).
Proof. destruct fuel; [lia|reflexivity]. Qed.

(** C9, as stated, fails: the value [getAttributes()] returns for a
    selection with bold set gives the pair of bold when it is iterated to
    its end, and nothing when it is iterated again. *)
Lemma getAttributes_restart_counterexample :
  attributes Scenario.boldSelection = [("bold"%string, VBool true)] /\
  fst (iterate 5 (getAttributes Scenario.boldSelection) Scenario.boldSelection)
    = Some [("bold"%string, VBool true)] /\
  fst (iterate 5
         (snd (iterate 5 (getAttributes Scenario.boldSelection) Scenario.boldSelection))
         Scenario.boldSelection)
    = Some [] /\
  fst (iterate 5
         (snd (iterate 5 (getAttributes Scenario.boldSelection) Scenario.boldSelection))
         Scenario.boldSelection)
    <> fst (iterate 5 (getAttributes Scenario.boldSelection) Scenario.boldSelection).
Proof.
  split; [reflexivity|]. split; [reflexivity|]. split; [reflexivity|]. discriminate.
Qed.

(** C9 (amended).  [getAttributes()] returns a single-pass iterator over the
    current attribute map: iterated to its end (any number of steps above the
    size of the map is enough) it gives the pairs of the map in their order
    and no more; iterated again it gives nothing; a new call of
    [getAttributes()] gives the pairs again. *)
Theorem getAttributes_single_pass (w : World) (fuel : nat) :
  length (attributes w) < fuel ->
  exists it',
    iterate fuel (getAttributes w) w = (Some (attributes w), it') /\
    iterate fuel it' w = (Some [], it') /\
    fst (iterate fuel (getAttributes w) w) = Some (attributes w).
Proof.
  intros Hfuel. unfold getAttributes, attributes in *.
  rewrite (iterate_from w (_attrs w) fuel 0) by lia.
  eexists. split; [reflexivity|]. split; [|reflexivity].
  apply iterate_done. lia.
Qed.

Lemma getAttributes_single_pass_witness :
  length (attributes Scenario.boldSelection) < 2 /\
  exists it',
    iterate 2 (getAttributes Scenario.boldSelection) Scenario.boldSelection
      = (Some (attributes Scenario.boldSelection), it') /\
    iterate 2 it' Scenario.boldSelection = (Some [], it') /\
    fst (iterate 2 (getAttributes Scenario.boldSelection) Scenario.boldSelection)
      = Some (attributes Scenario.boldSelection).
Proof.
  split; [vm_compute; lia|].
  apply (getAttributes_single_pass Scenario.boldSelection 2). vm_compute. lia.
Defined.

(** ** Ranges and their subscriptions *)

Lemma bind_normal {A B} (m : JS A) (k : A -> JS B) (w w1 : World) (a : A) :
  m w = (Normal a, w1) -> bind m k w = k a w1.
Proof. intros H. unfold bind. now rewrite H. Qed.

Lemma bind_throw {A B} (m : JS A) (k : A -> JS B) (w w1 : World) (e : Error) :
  m w = (Throw e, w1) -> bind m k w = (Throw e, w1).
Proof. intros H. unfold bind. now rewrite H. Qed.

(** Detaching a list of live ranges only takes their subscriptions away. *)
Lemma detach_all (ranges : list LiveRange) (w : World) :
  exists w',
    forEach ranges LiveRange_detach w = (Normal tt, w') /\
    root w' = root w /\
    _ranges w' = _ranges w /\
    nextLiveId w' = nextLiveId w /\
    (forall i, i ∈ changeListeners w' <->
               i ∈ changeListeners w /\ i ∉ liveId <$> ranges).
Proof.
  revert w. induction ranges as [|lr ranges IH]; intros w; cbn [forEach].
  - exists w. repeat split; try tauto.
    intros Hin. now apply elem_of_nil in Hin.
  - unfold bind, LiveRange_detach at 1, modify.
    destruct (IH (set_changeListeners
                    (List.filter (fun i => negb (i =? liveId lr)) (changeListeners w)) w))
      as (w' & Hrun & Hr & Hs & Hn & Hl).
    simpl in Hr, Hs, Hn, Hl.
    exists w'. rewrite Hrun. do 4 (split; [assumption || reflexivity|]).
    intros i. rewrite Hl, fmap_cons, not_elem_of_cons, !list_elem_of_In, List.filter_In.
    rewrite negb_true_iff, Nat.eqb_neq. tauto.
Qed.

(** [destroy()] leaves none of the held ranges subscribed. *)
Lemma destroy_run (w : World) :
  exists w0,
    destroy w = (Normal tt, w0) /\
    root w0 = root w /\
    _ranges w0 = _ranges w /\
    nextLiveId w0 = nextLiveId w /\
    (forall i, i ∈ changeListeners w0 <->
               i ∈ changeListeners w /\ i ∉ liveId <$> _ranges w).
Proof.
  unfold destroy, bind, gets. exact (detach_all (_ranges w) w).
Qed.

(** Pushing a list of ranges: each is checked, wrapped and subscribed in
    turn; the first that fails the check stops the loop. *)
Lemma push_all (newRanges : list Range) (w : World) :
  exists c w' pushed,
    forEach newRanges _pushRange w = (c, w') /\
    root w' = root w /\
    _ranges w' = _ranges w ++ pushed /\
    changeListeners w' = changeListeners w ++ (liveId <$> pushed) /\
    nextLiveId w <= nextLiveId w' /\
    (forall lr, lr ∈ pushed ->
       liveRange lr ∈ newRanges /\
       Range_isValid (root w) (liveRange lr) = true /\
       nextLiveId w <= liveId lr) /\
    (c = Normal tt -> liveRange <$> pushed = newRanges).
Proof.
  revert w. induction newRanges as [|range newRanges IH]; intros w; cbn [forEach].
  - exists (Normal tt), w, []. rewrite !app_nil_r.
    do 5 (split; [reflexivity || lia|]). split; [|reflexivity].
    intros lr Hin. now apply elem_of_nil in Hin.
  - unfold bind at 1. unfold _pushRange at 1, bind at 1, _checkRange at 1.
    destruct (Range_isValid (root w) range) eqn:Hvalid.
    + unfold bind at 1, LiveRange_createFromRange at 1, modify at 1.
      match goal with |- context [forEach newRanges _pushRange ?w1] =>
        destruct (IH w1) as (c & w' & pushed & Hrun & Hr & Hs & Hl & Hn & Hp & Hc)
      end.
      simpl in Hr, Hs, Hl, Hn, Hp.
      exists c, w', (mkLiveRange (nextLiveId w) range :: pushed).
      rewrite Hrun. split; [reflexivity|]. split; [assumption|].
      split; [now rewrite Hs, <- app_assoc|].
      split; [now rewrite Hl, <- app_assoc|].
      split; [lia|]. split.
      * intros lr' [->|Hin]%elem_of_cons; simpl.
        -- split; [now left|]. split; [assumption|lia].
        -- destruct (Hp lr' Hin) as (H1 & H2 & H3).
           split; [now right|]. split; [assumption|lia].
      * intros Hn'. rewrite fmap_cons. simpl. now rewrite Hc.
    + exists (Throw (CKEditorError "selection-range-invalid")), w, [].
      rewrite !app_nil_r.
      do 5 (split; [reflexivity || lia|]). split; [|discriminate].
      intros lr Hin. now apply elem_of_nil in Hin.
Qed.

Lemma destroy_detaches (w w0 : World) :
  (forall i, i ∈ changeListeners w0 <->
             i ∈ changeListeners w /\ i ∉ liveId <$> _ranges w) ->
  forall lr, lr ∈ _ranges w -> liveId lr ∉ changeListeners w0.
Proof.
  intros Hl lr Hin Hsub. apply Hl in Hsub as [_ Hnot]. apply Hnot.
  apply list_elem_of_fmap. now exists lr.
Qed.

(** [super.setRanges] after [destroy]. *)
Lemma Selection_setRanges_run (newRanges : list Range) (isLastBackward : bool) (w0 : World) :
  exists c w' pushed,
    Selection_setRanges newRanges isLastBackward w0 = (c, w') /\
    _ranges w' = pushed /\
    changeListeners w' = changeListeners w0 ++ (liveId <$> pushed) /\
    (forall lr, lr ∈ pushed ->
       liveRange lr ∈ newRanges /\
       Range_isValid (root w0) (liveRange lr) = true /\
       nextLiveId w0 <= liveId lr) /\
    (c = Normal tt -> liveRange <$> pushed = newRanges).
Proof.
  unfold Selection_setRanges. unfold bind at 1, modify at 1.
  destruct (push_all newRanges (set__ranges [] w0))
    as (c & w1 & pushed & Hrun & Hr & Hs & Hl & Hn & Hp & Hc).
  simpl in Hr, Hs, Hl, Hn, Hp.
  destruct c as [[]|e].
  - rewrite (bind_normal _ _ _ _ _ Hrun).
    unfold bind, modify, fire. simpl.
    eexists _, _, pushed. split; [reflexivity|]. simpl. auto.
  - rewrite (bind_throw _ _ _ _ _ Hrun).
    exists (Throw e), w1, pushed. auto.
Qed.

Lemma last_snoc {A} (l : list A) (x : A) :
  List.last (List.map Some (l ++ [x])) None = Some x.
Proof. rewrite List.map_app. simpl. apply List.last_last. Qed.

(** C8.  [setRanges] and [removeAllRanges] first run [destroy], after which
    none of the live ranges held so far is subscribed to the document, and
    only then install the new ranges or leave none; none of the old ones is
    subscribed afterwards either.  Every range [setRanges] stores is the
    live wrapping of one of the incoming ranges that passed [_checkRange],
    and is subscribed; when [setRanges] completes, the stored ranges wrap
    the incoming ones in their order.  The range [_popRange] takes off is
    detached. *)
Theorem ranges_detached_then_wrapped
    (w : World) (newRanges : list Range) (isLastBackward : bool) :
  (forall lr, lr ∈ _ranges w -> liveId lr < nextLiveId w) ->
  (exists w0 c w',
     destroy w = (Normal tt, w0) /\
     (forall lr, lr ∈ _ranges w -> liveId lr ∉ changeListeners w0) /\
     Selection_setRanges newRanges isLastBackward w0 = (c, w') /\
     setRanges newRanges isLastBackward w = (c, w') /\
     (forall lr, lr ∈ _ranges w -> liveId lr ∉ changeListeners w') /\
     (forall lr, lr ∈ _ranges w' ->
        liveRange lr ∈ newRanges /\
        Range_isValid (root w) (liveRange lr) = true /\
        liveId lr ∈ changeListeners w') /\
     (c = Normal tt -> liveRange <$> _ranges w' = newRanges)) /\
  (exists w',
     removeAllRanges w = (Normal tt, w') /\
     _ranges w' = [] /\
     (forall lr, lr ∈ _ranges w -> liveId lr ∉ changeListeners w')) /\
  (forall held lr,
     _ranges w = held ++ [lr] ->
     exists w',
       _popRange w = (Normal tt, w') /\
       _ranges w' = held /\
       liveId lr ∉ changeListeners w').
Proof.
  intros Hfresh.
  destruct (destroy_run w) as (w0 & Hdestroy & Hr0 & Hs0 & Hn0 & Hl0).
  pose proof (destroy_detaches w w0 Hl0) as Hdetached.
  split; [|split].
  - destruct (Selection_setRanges_run newRanges isLastBackward w0)
      as (c & w' & pushed & Hrun & Hs & Hl & Hp & Hc).
    exists w0, c, w'. split; [assumption|]. split; [assumption|].
    split; [assumption|]. split.
    { unfold setRanges. now rewrite (bind_normal _ _ _ _ _ Hdestroy). }
    split; [|split].
    + intros lr Hin. rewrite Hl. intros [Hsub|Hsub]%elem_of_app.
      * now apply (Hdetached lr).
      * apply list_elem_of_fmap in Hsub as (lr' & Heq & Hin').
        destruct (Hp lr' Hin') as (_ & _ & Hge).
        specialize (Hfresh lr Hin). rewrite Heq, Hn0 in *. lia.
    + intros lr Hin. rewrite Hs in Hin. destruct (Hp lr Hin) as (H1 & H2 & _).
      split; [assumption|]. split; [now rewrite <- Hr0|].
      rewrite Hl. apply elem_of_app. right. apply list_elem_of_fmap. now exists lr.
    + intros Hn. rewrite Hs. now apply Hc.
  - unfold removeAllRanges. rewrite (bind_normal _ _ _ _ _ Hdestroy).
    unfold Selection_removeAllRanges, bind, modify, fire. simpl.
    eexists. split; [reflexivity|]. simpl. split; [reflexivity|]. assumption.
  - intros held lr Hheld.
    unfold _popRange, bind, gets. rewrite Hheld, last_snoc.
    unfold modify, LiveRange_detach. simpl. rewrite Hheld, List.removelast_last.
    eexists. split; [reflexivity|]. simpl. split; [reflexivity|].
    intros Hsub. apply list_elem_of_In, List.filter_In in Hsub as [_ Hne].
    now rewrite Nat.eqb_refl in Hne.
Qed.

Lemma ranges_detached_then_wrapped_witness :
  (forall lr, lr ∈ _ranges Scenario.caretAfterBoldText ->
              liveId lr < nextLiveId Scenario.caretAfterBoldText) /\
  exists w0 c w',
    destroy Scenario.caretAfterBoldText = (Normal tt, w0) /\
    (forall lr, lr ∈ _ranges Scenario.caretAfterBoldText -> liveId lr ∉ changeListeners w0) /\
    Selection_setRanges [Scenario.caretAt [0] 1] false w0 = (c, w') /\
    setRanges [Scenario.caretAt [0] 1] false Scenario.caretAfterBoldText = (c, w') /\
    (forall lr, lr ∈ _ranges Scenario.caretAfterBoldText -> liveId lr ∉ changeListeners w') /\
    (forall lr, lr ∈ _ranges w' ->
       liveRange lr ∈ [Scenario.caretAt [0] 1] /\
       Range_isValid (root Scenario.caretAfterBoldText) (liveRange lr) = true /\
       liveId lr ∈ changeListeners w') /\
    (c = Normal tt -> liveRange <$> _ranges w' = [Scenario.caretAt [0] 1]).
Proof.
  assert (Hfresh : forall lr, lr ∈ _ranges Scenario.caretAfterBoldText ->
                              liveId lr < nextLiveId Scenario.caretAfterBoldText).
  { intros lr Hin. vm_compute in Hin. apply list_elem_of_singleton in Hin. subst lr.
    vm_compute. lia. }
  split; [exact Hfresh|].
  exact (proj1 (ranges_detached_then_wrapped Scenario.caretAfterBoldText
                  [Scenario.caretAt [0] 1] false Hfresh)).
Defined.

(** ** Changing the attributes of a node of the tree *)

Lemma alterAttributes_id (path : Path) (n : Node) :
  alterAttributes (fun a => a) path n = n.
Proof.
  revert n. induction path as [|i rest IH]; intros [c a|name a ch]; simpl; try reflexivity.
  destruct (ch !! i) as [child|] eqn:E; [|reflexivity].
  now rewrite IH, list_insert_id.
Qed.

Lemma alterAttributes_compose (f g : Entries -> Entries) (path : Path) (n : Node) :
  alterAttributes g path (alterAttributes f path n) =
  alterAttributes (fun a => g (f a)) path n.
Proof.
  revert n. induction path as [|i rest IH]; intros [c a|name a ch]; simpl; try reflexivity.
  destruct (ch !! i) as [child|] eqn:E; [|now rewrite E].
  assert (i < length ch) by (eapply lookup_lt_Some; eassumption).
  rewrite list_lookup_insert_eq by assumption.
  now rewrite list_insert_insert_eq, IH.
Qed.

(** Only what [f] does to the attributes found at [path] matters. *)
Lemma alterAttributes_ext_at (f g : Entries -> Entries) (path : Path) (n m : Node) :
  getNodeByPath n path = Some m ->
  f (Node_getAttributes m) = g (Node_getAttributes m) ->
  alterAttributes f path n = alterAttributes g path n.
Proof.
  revert n. induction path as [|i rest IH]; intros n Hm Heq; simpl in Hm.
  - injection Hm as <-. destruct n as [c a|name a ch]; simpl in *; now rewrite Heq.
  - destruct n as [c a|name a ch]; simpl in *; [reflexivity|].
    destruct (ch !! i) as [child|] eqn:E; [|discriminate].
    now rewrite (IH child Hm Heq).
Qed.

Lemma getNodeByPath_alter_same (f : Entries -> Entries) (path : Path) (n m : Node) :
  getNodeByPath n path = Some m ->
  getNodeByPath (alterAttributes f path n) path = Some (alterAttributes f [] m).
Proof.
  revert n. induction path as [|i rest IH]; intros n Hm; simpl in Hm.
  - injection Hm as <-. now destruct n.
  - destruct n as [c a|name a ch]; simpl in *; [discriminate|].
    destruct (ch !! i) as [child|] eqn:E; [|discriminate].
    assert (i < length ch) by (eapply lookup_lt_Some; eassumption).
    rewrite list_lookup_insert_eq by assumption. now apply IH.
Qed.

(** An element without children stays one, whatever attributes change and
    wherever. *)
Lemma alterAttributes_keeps_empty_element
    (f : Entries -> Entries) (q p : Path) (n : Node) name a :
  getNodeByPath n p = Some (Element name a []) ->
  exists a', getNodeByPath (alterAttributes f q n) p = Some (Element name a' []).
Proof.
  revert n q. induction p as [|i p IH]; intros n q Hp; simpl in Hp.
  - injection Hp as ->. destruct q as [|j q]; simpl; eauto.
  - destruct n as [c an|nm an ch]; simpl in Hp; [discriminate|].
    destruct (ch !! i) as [child|] eqn:E; [|discriminate].
    destruct q as [|j q]; simpl.
    + rewrite E. eauto.
    + destruct (ch !! j) as [cj|] eqn:Ej.
      * destruct (decide (j = i)) as [->|Hne].
        -- assert (i < length ch) by (eapply lookup_lt_Some; eassumption).
           rewrite list_lookup_insert_eq by assumption.
           rewrite E in Ej. injection Ej as <-. now apply IH.
        -- rewrite list_lookup_insert_ne by assumption. rewrite E. eauto.
      * rewrite E. eauto.
Qed.

(** ** Strings with the store prefix *)

Lemma prefix_append (p s : string) : String.prefix p (String.append p s) = true.
Proof.
  induction p as [|c p IH]; simpl; [now destruct s|].
  destruct (Ascii.ascii_dec c c); [assumption|contradiction].
Qed.

Lemma substr_append (p s : string) : substr (String.length p) (String.append p s) = s.
Proof. induction p as [|c p IH]; simpl; [reflexivity|assumption]. Qed.

Lemma append_substr (p s : string) :
  String.prefix p s = true -> String.append p (substr (String.length p) s) = s.
Proof.
  revert s. induction p as [|c p IH]; intros s Hp; [reflexivity|].
  destruct s as [|c' s]; simpl in *; [discriminate|].
  destruct (Ascii.ascii_dec c c') as [->|]; [|discriminate].
  change (String c' (String.append p (substr (String.length p) s)) = String c' s).
  now rewrite IH.
Qed.

Lemma append_inj (p s t : string) : String.append p s = String.append p t -> s = t.
Proof.
  induction p as [|c p IH]; [trivial|].
  change (String c (String.append p s) = String c (String.append p t) -> s = t).
  intros [= H]. auto.
Qed.

Lemma storeKey_startsWith (key : string) :
  startsWith storePrefix (_getStoreAttributeKey key) = true.
Proof. apply prefix_append. Qed.

Lemma storeKey_substr (key : string) :
  substr (String.length storePrefix) (_getStoreAttributeKey key) = key.
Proof. apply substr_append. Qed.

Lemma storeKey_of_stored (key : string) :
  startsWith storePrefix key = true ->
  _getStoreAttributeKey (substr (String.length storePrefix) key) = key.
Proof. apply append_substr. Qed.

(** ** What is stored *)

#[local] Arguments startsWith : simpl never.
#[local] Arguments substr : simpl never.
#[local] Arguments _getStoreAttributeKey : simpl never.
#[local] Arguments String.length : simpl never.

Lemma storedEntries_app (l1 l2 : Entries) :
  storedEntries (l1 ++ l2) = storedEntries l1 ++ storedEntries l2.
Proof.
  induction l1 as [|attr l1 IH]; simpl; [reflexivity|].
  destruct (startsWith storePrefix (fst attr)); simpl; now rewrite IH.
Qed.

Lemma storedEntries_own (attrs : Entries) : storedEntries (ownEntries attrs) = [].
Proof.
  unfold ownEntries. induction attrs as [|attr attrs IH]; simpl; [reflexivity|].
  destruct (startsWith storePrefix (fst attr)) eqn:E; simpl; [assumption|].
  now rewrite E.
Qed.

Lemma storedEntries_storedAs (entries : Entries) :
  storedEntries (List.map storedAs entries) = entries.
Proof.
  induction entries as [|[k v] entries IH]; simpl; [reflexivity|].
  rewrite storeKey_startsWith, storeKey_substr. now rewrite IH.
Qed.

(** Reading the store back gives the entries written. *)
Lemma storedEntries_restored (parentAttrs entries : Entries) :
  storedEntries (restored parentAttrs entries) = entries.
Proof.
  unfold restored.
  now rewrite storedEntries_app, storedEntries_own, storedEntries_storedAs.
Qed.

Lemma storedEntries_elem (attrs : Entries) (attr : string * Value) :
  attr ∈ attrs ->
  startsWith storePrefix (fst attr) = true ->
  (substr (String.length storePrefix) (fst attr), snd attr) ∈ storedEntries attrs.
Proof.
  induction attrs as [|x attrs IH]; intros Hin Hp; [now apply elem_of_nil in Hin|].
  simpl. apply elem_of_cons in Hin as [<-|Hin].
  - rewrite Hp. now left.
  - destruct (startsWith storePrefix (fst x)); [right|]; auto.
Qed.

(** ** The two loops of the enqueued function *)

Lemma fold_delete {A} (key : A -> string) (l : list A) (attrs : Entries) :
  fold_left (fun a e => JSMap.delete (key e) a) l attrs =
  List.filter (fun x => negb (existsb (fun e => String.eqb (fst x) (key e)) l)) attrs.
Proof.
  revert attrs. induction l as [|e l IH]; intros attrs; simpl.
  - induction attrs as [|x attrs IHa]; simpl; [reflexivity|]. now rewrite <- IHa.
  - rewrite IH. unfold JSMap.delete.
    induction attrs as [|x attrs IHa]; simpl; [reflexivity|].
    destruct (String.eqb (fst x) (key e)); simpl; [assumption|].
    destruct (existsb _ l); simpl; [assumption|]. now rewrite IHa.
Qed.

(** The first loop takes every stored attribute off the parent and leaves
    the others. *)
Lemma remove_loop (attrs : Entries) :
  fold_left (fun a attr => JSMap.delete (_getStoreAttributeKey (fst attr)) a)
            (storedEntries attrs) attrs
  = ownEntries attrs.
Proof.
  rewrite fold_delete. unfold ownEntries. apply List.filter_ext_in.
  intros x Hx. f_equal. apply list_elem_of_In in Hx.
  destruct (startsWith storePrefix (fst x)) eqn:Hp.
  - apply List.existsb_exists.
    exists (substr (String.length storePrefix) (fst x), snd x). split.
    + apply list_elem_of_In. now apply storedEntries_elem.
    + simpl. rewrite storeKey_of_stored by assumption. apply String.eqb_refl.
  - apply not_true_is_false. intros Hex.
    apply List.existsb_exists in Hex as (e & He & Heq).
    apply String.eqb_eq in Heq. rewrite Heq, storeKey_startsWith in Hp. discriminate.
Qed.

Lemma fold_set_append (pairs acc : Entries) :
  NoDup (JSMap.keys pairs) ->
  (forall k, k ∈ JSMap.keys pairs -> k ∉ JSMap.keys acc) ->
  fold_left (fun m e => JSMap.set (fst e) (snd e) m) pairs acc = acc ++ pairs.
Proof.
  revert acc. induction pairs as [|[k v] pairs IH]; simpl; intros acc Hnd Hfresh.
  - now rewrite List.app_nil_r.
  - apply NoDup_cons in Hnd as [Hk Hnd].
    rewrite JSMap_set_fresh by (apply Hfresh; now left).
    rewrite IH; [now rewrite <- List.app_assoc|assumption|].
    intros k' Hk'. unfold JSMap.keys. rewrite List.map_app. simpl.
    intros [Hin|Hin]%elem_of_app.
    + apply (Hfresh k'); [now right|assumption].
    + apply list_elem_of_singleton in Hin. now subst.
Qed.

#[local] Instance storeKey_inj : Inj (=) (=) _getStoreAttributeKey.
Proof. intros k1 k2. apply append_inj. Qed.

(** The second loop appends the entries under their store keys, when the
    parent holds no stored attribute and the entries have distinct keys. *)
Lemma set_loop (entries attrs : Entries) :
  NoDup (JSMap.keys entries) ->
  fold_left (fun a attr => JSMap.set (_getStoreAttributeKey (fst attr)) (snd attr) a)
            entries (ownEntries attrs)
  = restored attrs entries.
Proof.
  intros Hnd. unfold restored.
  rewrite <- (fold_set_append (List.map storedAs entries) (ownEntries attrs)).
  - generalize (ownEntries attrs). clear.
    induction entries as [|e entries IH]; intros acc; simpl; [reflexivity|apply IH].
  - unfold JSMap.keys. rewrite List.map_map. simpl.
    rewrite <- (List.map_map fst _getStoreAttributeKey).
    now apply (NoDup_fmap_2 _getStoreAttributeKey).
  - intros k Hk Hin. unfold JSMap.keys in *. rewrite List.map_map in Hk. simpl in Hk.
    apply list_elem_of_In, List.in_map_iff in Hk as (e & <- & _).
    apply list_elem_of_In, List.in_map_iff in Hin as (x & Hkey & Hx).
    apply List.filter_In in Hx as [_ Hown].
    rewrite Hkey, storeKey_startsWith in Hown. discriminate.
Qed.

(** ** Running the enqueued functions *)

Lemma set_root_same (w : World) : set_root (root w) w = w.
Proof. now destruct w. Qed.

Lemma set_root_twice (r r' : Node) (w : World) :
  set_root r' (set_root r w) = set_root r' w.
Proof. reflexivity. Qed.

Lemma forEach_app {A} (l1 l2 : list A) (body : A -> JS unit) (w : World) :
  forEach (l1 ++ l2) body w = (forEach l1 body ;; forEach l2 body) w.
Proof.
  revert w. induction l1 as [|x l1 IH]; intros w; simpl; [reflexivity|].
  unfold bind in *. destruct (body x w) as [[[]|e] w1]; [|reflexivity].
  now rewrite IH.
Qed.

(** A loop of batch calls on one node is one change of its attributes. *)
Lemma forEach_alter {A} (l : list A) (F : A -> Entries -> Entries) (node : Path) (w : World) :
  forEach l (fun x => modify (fun w => set_root (alterAttributes (F x) node (root w)) w)) w
  = (Normal tt,
     set_root (alterAttributes (fun a => fold_left (fun a x => F x a) l a) node (root w)) w).
Proof.
  revert w. induction l as [|x l IH]; intros w; simpl.
  - now rewrite alterAttributes_id, set_root_same.
  - unfold bind, modify at 1. rewrite IH. simpl.
    now rewrite alterAttributes_compose.
Qed.

(** Every enqueued function completes and changes nothing but the
    attributes of one node of the tree. *)
Lemma runChange_alters (c : Change) (w : World) (sp : Path * Node) :
  selectionParent w = Some sp ->
  exists f node, runChange c w = (Normal tt, set_root (alterAttributes f node (root w)) w).
Proof.
  intros Hsp. destruct c as [storeKey node|storeKey value node|attrs node]; simpl.
  - eexists _, node. reflexivity.
  - eexists _, node. reflexivity.
  - unfold bind at 1. rewrite (_getStoredAttributes_run w w sp) by (assumption || reflexivity).
    unfold bind at 1. unfold Batch_removeAttr. rewrite forEach_alter.
    unfold bind at 1, gets at 1. unfold Batch_setAttr. rewrite forEach_alter.
    rewrite set_root_twice. simpl.
    rewrite alterAttributes_compose. eexists _, node. reflexivity.
Qed.

(** The function enqueued by [_setStoredAttributesTo], run for a caret in
    an empty element on that element: the stored attributes are replaced by
    the entries of the map. *)
Lemma runChange_replaces (w : World) (sp : Path * Node) (attrs : nat) :
  selectionParent w = Some sp ->
  storeGuard w = true ->
  NoDup (JSMap.keys (Map_entries w attrs)) ->
  runChange (setStoredAttributesTo_change attrs (fst sp)) w =
  (Normal tt,
   set_root
     (alterAttributes
        (fun _ => restored (Node_getAttributes (snd sp)) (Map_entries w attrs))
        (fst sp) (root w)) w).
Proof.
  intros Hsp Hguard Hnd. simpl.
  unfold bind at 1. rewrite (_getStoredAttributes_run w w sp) by (assumption || reflexivity).
  rewrite Hguard.
  unfold bind at 1. unfold Batch_removeAttr.
  rewrite (forEach_alter _ (fun attr => JSMap.delete (_getStoreAttributeKey (fst attr)))).
  unfold bind at 1, gets at 1. unfold Batch_setAttr.
  rewrite (forEach_alter _
             (fun attr => JSMap.set (_getStoreAttributeKey (fst attr)) (snd attr))).
  rewrite set_root_twice. simpl. rewrite alterAttributes_compose. do 2 f_equal.
  destruct (selectionParent_inv w sp Hsp) as (range & _ & _ & _ & Hnode).
  apply (alterAttributes_ext_at _ _ _ _ _ Hnode).
  now rewrite remove_loop, set_loop.
Qed.

Lemma caretInEmptyElement_guard (w : World) (parent : Path) :
  caretInEmptyElement w parent -> storeGuard w = true.
Proof.
  intros (Hc & name & a & Hsp). now rewrite (storeGuard_eq _ _ Hsp), Hc.
Qed.

Lemma caretInEmptyElement_frame (w w' : World) (parent : Path) :
  root w' = root w -> _ranges w' = _ranges w ->
  caretInEmptyElement w parent -> caretInEmptyElement w' parent.
Proof.
  intros Hr Hs (Hc & name & a & Hsp). split.
  - now rewrite (isCollapsed_frame _ _ Hs).
  - exists name, a. now rewrite (selectionParent_frame _ _ Hr Hs).
Qed.

(** Changing attributes in the tree keeps the caret in its empty element. *)
Lemma caretInEmptyElement_alter (w : World) (parent : Path) f node :
  caretInEmptyElement w parent ->
  caretInEmptyElement (set_root (alterAttributes f node (root w)) w) parent.
Proof.
  intros (Hc & name & a & Hsp). split; [exact Hc|].
  destruct (selectionParent_inv w _ Hsp) as (range & Hrange & Hpos & Hpath & Hnode).
  simpl in Hpath, Hnode.
  destruct (alterAttributes_keeps_empty_element f node parent (root w) name a Hnode)
    as (a' & Hnode').
  exists name, a'. unfold selectionParent, getFirstPosition, getFirstRange in *. simpl.
  destruct (_ranges w) as [|lr rest]; [discriminate|]. simpl in *.
  injection Hrange as <-. rewrite <- Hpath, Hnode'. reflexivity.
Qed.

(** Running pending changes for a caret in an empty element: they all
    complete, touch only the tree, and leave the caret where it is. *)
Lemma runChanges_keep (changes : list Change) (w : World) (parent : Path) :
  caretInEmptyElement w parent ->
  exists r,
    forEach changes runChange w = (Normal tt, set_root r w) /\
    caretInEmptyElement (set_root r w) parent.
Proof.
  revert w. induction changes as [|c changes IH]; intros w Hcaret; simpl.
  - exists (root w). now rewrite set_root_same.
  - pose proof Hcaret as (_ & name & a & Hsp).
    destruct (runChange_alters c w _ Hsp) as (f & node & Hrun).
    rewrite (bind_normal _ _ _ _ _ Hrun).
    destruct (IH _ (caretInEmptyElement_alter w parent f node Hcaret)) as (r & Hrest & Hcaret').
    exists r. split; assumption.
Qed.

Lemma selectionParent_of (w : World) (range : Range) name a ch :
  getFirstRange w = Some range ->
  getNodeByPath (root w) (parentPath (start range)) = Some (Element name a ch) ->
  selectionParent w = Some (parentPath (start range), Element name a ch).
Proof.
  intros Hrange Hnode. unfold selectionParent, getFirstPosition.
  rewrite Hrange. simpl. now rewrite Hnode.
Qed.

Lemma caretInEmptyElement_intro (w : World) (sp : Path * Node) :
  selectionParent w = Some sp ->
  isCollapsed w = true ->
  getChildCount (snd sp) = 0 ->
  caretInEmptyElement w (fst sp) /\
  exists name a, sp = (fst sp, Element name a []).
Proof.
  intros Hsp Hc Hcount.
  assert (exists name a, sp = (fst sp, Element name a [])) as (name & a & Heq).
  { unfold selectionParent in Hsp.
    destruct (getFirstPosition w) as [pos|]; [|discriminate].
    destruct (getNodeByPath (root w) (parentPath pos)) as [[c a|name a ch]|]; try discriminate.
    injection Hsp as <-. simpl in *. destruct ch; [|discriminate]. eauto. }
  split; [|eauto]. split; [assumption|]. exists name, a. now rewrite <- Heq.
Qed.

(** [setAttributesTo] for a caret in an empty element. *)
Lemma setAttributesTo_run (w : World) (parent : Path) (attrs : Entries) :
  caretInEmptyElement w parent ->
  exists w',
    setAttributesTo attrs w = (Normal tt, w') /\
    root w' = root w /\
    _ranges w' = _ranges w /\
    pendingChanges w' =
      pendingChanges w ++ [setStoredAttributesTo_change (_attrs w') parent] /\
    Map_entries w' (_attrs w') = JSMap.fromIterable attrs.
Proof.
  intros Hcaret. pose proof Hcaret as (_ & name & a & Hsp).
  pose proof (caretInEmptyElement_guard _ _ Hcaret) as Hguard.
  unfold setAttributesTo, bind, gets, toMap, Map_new, modify, fire. simpl.
  rewrite (_setStoredAttributesTo_run w _ _ Hsp) by reflexivity.
  rewrite Hguard. simpl.
  eexists; split; [reflexivity|]. simpl. repeat split.
  unfold Map_entries. simpl. now rewrite lookup_insert_eq.
Qed.

(** [clearAttributes] for a caret in an empty element: the change it
    enqueues carries a new, empty map. *)
Lemma clearAttributes_run (w : World) (parent : Path) :
  caretInEmptyElement w parent ->
  exists w' empty,
    clearAttributes w = (Normal tt, w') /\
    root w' = root w /\
    _ranges w' = _ranges w /\
    pendingChanges w' =
      pendingChanges w ++ [setStoredAttributesTo_change empty parent] /\
    Map_entries w' empty = [] /\
    attributes w' = [].
Proof.
  intros Hcaret. pose proof Hcaret as (_ & name & a & Hsp).
  pose proof (caretInEmptyElement_guard _ _ Hcaret) as Hguard.
  unfold clearAttributes, bind, gets, Map_update, Map_new, modify, fire. simpl.
  rewrite (_setStoredAttributesTo_run w _ _ Hsp) by reflexivity.
  rewrite Hguard. simpl.
  eexists _, (nextMap w); split; [reflexivity|]. simpl. repeat split.
  - unfold Map_entries. simpl. now rewrite lookup_insert_eq.
  - unfold attributes, Map_entries. simpl.
    destruct (decide (nextMap w = _attrs w)) as [->|Hne].
    + now rewrite lookup_insert_eq.
    + now rewrite lookup_insert_ne, lookup_insert_eq.
Qed.

(** Flushing when the last pending change is one enqueued by
    [_setStoredAttributesTo] for the caret's own empty element: whatever ran
    before it, the store then holds the entries of its map and nothing
    else. *)
Lemma flush_replaces (w : World) (parent : Path) (attrs : nat) (prior : list Change) :
  caretInEmptyElement w parent ->
  pendingChanges w = prior ++ [setStoredAttributesTo_change attrs parent] ->
  NoDup (JSMap.keys (Map_entries w attrs)) ->
  exists w' name a,
    flushChanges w = (Normal tt, w') /\
    pendingChanges w' = [] /\
    isCollapsed w' = true /\
    selectionParent w' =
      Some (parent, Element name (restored a (Map_entries w attrs)) []).
Proof.
  intros Hcaret Hpending Hnd.
  unfold flushChanges, bind, gets, modify. rewrite Hpending, forEach_app.
  assert (Hcaret0 : caretInEmptyElement (set_pendingChanges [] w) parent)
    by (apply (caretInEmptyElement_frame w); auto).
  destruct (runChanges_keep prior _ _ Hcaret0) as (r & Hprior & Hcaret1).
  rewrite (bind_normal _ _ _ _ _ Hprior). simpl.
  pose proof Hcaret1 as (Hc & name & a & Hsp).
  pose proof (caretInEmptyElement_guard _ _ Hcaret1) as Hguard.
  rewrite (bind_normal _ _ _ _ _ (runChange_replaces _ _ attrs Hsp Hguard Hnd)).
  eexists _, name, a. split; [reflexivity|]. split; [reflexivity|].
  split; [exact Hc|].
  destruct (selectionParent_inv _ _ Hsp) as (range & Hrange & _ & Hpath & Hnode).
  simpl in Hpath, Hnode. subst parent.
  apply selectionParent_of; [exact Hrange|]. simpl.
  rewrite (getNodeByPath_alter_same _ _ _ _ Hnode). reflexivity.
Qed.

(** Reading the store of a caret in an empty element. *)
Lemma stored_of_empty_element (w : World) (parent : Path) name a :
  isCollapsed w = true ->
  selectionParent w = Some (parent, Element name a []) ->
  _getStoredAttributes w = (Normal (storedEntries a), w) /\
  exists w',
    _updateAttributes w = (Normal tt, w') /\
    attributes w' = JSMap.fromIterable (storedEntries a).
Proof.
  intros Hc Hsp. split.
  - rewrite (_getStoredAttributes_run w w _ Hsp) by reflexivity.
    now rewrite (storeGuard_eq _ _ Hsp), Hc.
  - destruct (selectionParent_inv _ _ Hsp) as (range & Hrange & _).
    destruct (updateAttributes_caret_run w _ range Hsp Hrange Hc)
      as (w' & attrs & Hrun & Hattrs & _ & _ & _ & _ & Ha).
    exists w'. split; [assumption|]. rewrite Ha. f_equal.
    unfold caretAttrs, getChild in Hattrs. simpl in Hattrs.
    destruct (Z.of_nat (offset (start range)) - 1 <? 0)%Z,
             (Z.of_nat (offset (start range)) <? 0)%Z;
      simpl in Hattrs; injection Hattrs as <-; reflexivity.
Qed.

(** C5.  For a collapsed selection whose parent element has no children,
    [setAttributesTo( attrs )] enqueues exactly one function and leaves the
    tree untouched at call time.  Run by the document, that function
    completes and leaves on the parent its own attributes followed by the
    new attributes under their store keys: every attribute stored before is
    gone, the new set is written, and nothing else in the tree changes. *)
Theorem setAttributesTo_schedules_one_replace
    (w : World) (sp : Path * Node) (attrs : Entries) :
  selectionParent w = Some sp ->
  isCollapsed w = true ->
  getChildCount (snd sp) = 0 ->
  exists w' change w'',
    setAttributesTo attrs w = (Normal tt, w') /\
    pendingChanges w' = pendingChanges w ++ [change] /\
    root w' = root w /\
    runChange change w' = (Normal tt, w'') /\
    root w'' =
      alterAttributes
        (fun _ => restored (Node_getAttributes (snd sp)) (JSMap.fromIterable attrs))
        (fst sp) (root w).
Proof.
  intros Hsp Hc Hcount.
  destruct (caretInEmptyElement_intro w sp Hsp Hc Hcount) as (Hcaret & name & a & Heq).
  destruct (setAttributesTo_run w (fst sp) attrs Hcaret) as (w' & Hrun & Hr & Hs & Hp & Hm).
  assert (Hsp' : selectionParent w' = Some sp)
    by now rewrite (selectionParent_frame _ _ Hr Hs).
  assert (Hguard : storeGuard w' = true).
  { rewrite (storeGuard_frame _ _ Hr Hs). now apply (caretInEmptyElement_guard w (fst sp)). }
  assert (Hnd : NoDup (JSMap.keys (Map_entries w' (_attrs w'))))
    by (rewrite Hm; apply fromIterable_NoDup).
  eexists w', _, _. split; [exact Hrun|]. split; [exact Hp|]. split; [exact Hr|].
  split; [exact (runChange_replaces w' sp (_attrs w') Hsp' Hguard Hnd)|].
  simpl. now rewrite Hm, Hr.
Qed.

Lemma setAttributesTo_schedules_one_replace_witness :
  selectionParent Scenario.caretInStoredBold
    = Some ([0], Element "paragraph" [("selection:bold"%string, VBool true)] []) /\
  isCollapsed Scenario.caretInStoredBold = true /\
  getChildCount (Element "paragraph" [("selection:bold"%string, VBool true)] []) = 0 /\
  exists w' change w'',
    setAttributesTo Scenario.italic Scenario.caretInStoredBold = (Normal tt, w') /\
    pendingChanges w' = pendingChanges Scenario.caretInStoredBold ++ [change] /\
    root w' = root Scenario.caretInStoredBold /\
    runChange change w' = (Normal tt, w'') /\
    root w'' =
      Element "$root" []
        [Element "paragraph" [("selection:italic"%string, VBool true)] []].
Proof.
  split; [reflexivity|]. split; [reflexivity|]. split; [reflexivity|].
  apply (setAttributesTo_schedules_one_replace Scenario.caretInStoredBold
           ([0], Element "paragraph" [("selection:bold"%string, VBool true)] [])
           Scenario.italic);
    reflexivity.
Defined.

(** C6.  For a collapsed selection whose parent element has no children:
    after [setAttributesTo( attrs )] and the run of the pending changes, the
    store read back for the same position gives the map of [attrs], and so
    does a resolution pass; after [clearAttributes()], which enqueues its own
    clearing of the store, and the run of the pending changes, the store
    gives nothing and the pass resolves to no attributes.  The store is
    empty as well when the pending changes only run after both calls. *)
Theorem store_round_trip (w : World) (sp : Path * Node) (attrs : Entries) :
  selectionParent w = Some sp ->
  isCollapsed w = true ->
  getChildCount (snd sp) = 0 ->
  exists w1 w2 w3 w4,
    setAttributesTo attrs w = (Normal tt, w1) /\
    flushChanges w1 = (Normal tt, w2) /\
    _getStoredAttributes w2 = (Normal (JSMap.fromIterable attrs), w2) /\
    (exists w2', _updateAttributes w2 = (Normal tt, w2') /\
                 attributes w2' = JSMap.fromIterable attrs) /\
    clearAttributes w2 = (Normal tt, w3) /\
    flushChanges w3 = (Normal tt, w4) /\
    _getStoredAttributes w4 = (Normal [], w4) /\
    (exists w4', _updateAttributes w4 = (Normal tt, w4') /\ attributes w4' = []) /\
    (exists v3 v4,
        clearAttributes w1 = (Normal tt, v3) /\
        flushChanges v3 = (Normal tt, v4) /\
        _getStoredAttributes v4 = (Normal [], v4)).
Proof.
  intros Hsp Hc Hcount.
  destruct (caretInEmptyElement_intro w sp Hsp Hc Hcount) as (Hcaret & _).
  set (parent := fst sp) in *.
  (* setAttributesTo *)
  destruct (setAttributesTo_run w parent attrs Hcaret) as (w1 & Hrun1 & Hr1 & Hs1 & Hp1 & Hm1).
  assert (Hcaret1 : caretInEmptyElement w1 parent)
    by (apply (caretInEmptyElement_frame w); assumption).
  (* the changes run *)
  destruct (flush_replaces w1 parent (_attrs w1) (pendingChanges w) Hcaret1 Hp1)
    as (w2 & name2 & a2 & Hflush2 & Hp2 & Hc2 & Hsp2);
    [rewrite Hm1; apply fromIterable_NoDup|].
  rewrite Hm1 in Hsp2.
  destruct (stored_of_empty_element w2 parent _ _ Hc2 Hsp2) as (Hstored2 & w2' & Hup2 & Ha2).
  rewrite storedEntries_restored in Hstored2, Ha2. rewrite fromIterable_idempotent in Ha2.
  assert (Hcaret2 : caretInEmptyElement w2 parent) by (split; eauto).
  (* clearAttributes *)
  destruct (clearAttributes_run w2 parent Hcaret2)
    as (w3 & empty & Hrun3 & Hr3 & Hs3 & Hp3 & Hm3 & _).
  assert (Hcaret3 : caretInEmptyElement w3 parent)
    by (apply (caretInEmptyElement_frame w2); assumption).
  destruct (flush_replaces w3 parent empty (pendingChanges w2) Hcaret3 Hp3)
    as (w4 & name4 & a4 & Hflush4 & Hp4 & Hc4 & Hsp4);
    [rewrite Hm3; constructor|].
  rewrite Hm3 in Hsp4.
  destruct (stored_of_empty_element w4 parent _ _ Hc4 Hsp4) as (Hstored4 & w4' & Hup4 & Ha4).
  rewrite storedEntries_restored in Hstored4, Ha4.
  (* clearAttributes before the changes run *)
  destruct (clearAttributes_run w1 parent Hcaret1)
    as (v3 & empty' & Hrun3' & Hr3' & Hs3' & Hp3' & Hm3' & _).
  assert (Hcaret3' : caretInEmptyElement v3 parent)
    by (apply (caretInEmptyElement_frame w1); assumption).
  destruct (flush_replaces v3 parent empty' (pendingChanges w1) Hcaret3' Hp3')
    as (v4 & name4' & a4' & Hflush4' & _ & Hc4' & Hsp4');
    [rewrite Hm3'; constructor|].
  rewrite Hm3' in Hsp4'.
  destruct (stored_of_empty_element v4 parent _ _ Hc4' Hsp4') as (Hstored4' & _).
  rewrite storedEntries_restored in Hstored4'.
  exists w1, w2, w3, w4. repeat (split; [eassumption || eauto|]).
  exists v3, v4. auto.
Qed.

Lemma store_round_trip_witness :
  selectionParent Scenario.caretInEmptyParagraph = Some ([0], Element "paragraph" [] []) /\
  isCollapsed Scenario.caretInEmptyParagraph = true /\
  getChildCount (Element "paragraph" [] []) = 0 /\
  exists w1 w2 w3 w4,
    setAttributesTo Scenario.bold Scenario.caretInEmptyParagraph = (Normal tt, w1) /\
    flushChanges w1 = (Normal tt, w2) /\
    _getStoredAttributes w2 = (Normal [("bold"%string, VBool true)], w2) /\
    (exists w2', _updateAttributes w2 = (Normal tt, w2') /\
                 attributes w2' = [("bold"%string, VBool true)]) /\
    clearAttributes w2 = (Normal tt, w3) /\
    flushChanges w3 = (Normal tt, w4) /\
    _getStoredAttributes w4 = (Normal [], w4) /\
    (exists w4', _updateAttributes w4 = (Normal tt, w4') /\ attributes w4' = []) /\
    (exists v3 v4,
        clearAttributes w1 = (Normal tt, v3) /\
        flushChanges v3 = (Normal tt, v4) /\
        _getStoredAttributes v4 = (Normal [], v4)).
Proof.
  split; [reflexivity|]. split; [reflexivity|]. split; [reflexivity|].
  apply (store_round_trip Scenario.caretInEmptyParagraph
           ([0], Element "paragraph" [] []) Scenario.bold);
    reflexivity.
Defined.


(** * Further properties *)

(** ** Reading the map after an operation *)

Lemma JSMap_get_set_eq key value (m : Entries) :
  JSMap.get key (JSMap.set key value m) = Some value.
Proof.
  induction m as [|[k v] m IH]; simpl.
  - now rewrite String.eqb_refl.
  - destruct (String.eqb_spec k key) as [->|Hne]; simpl.
    + now rewrite String.eqb_refl.
    + destruct (String.eqb_spec k key); [contradiction|]. exact IH.
Qed.

Lemma JSMap_get_set_ne key key' value (m : Entries) :
  key' <> key -> JSMap.get key' (JSMap.set key value m) = JSMap.get key' m.
Proof.
  intros Hne. induction m as [|[k v] m IH]; simpl.
  - destruct (String.eqb_spec key key'); [congruence|reflexivity].
  - destruct (String.eqb_spec k key) as [->|Hk]; simpl.
    + destruct (String.eqb_spec key key'); [congruence|reflexivity].
    + destruct (String.eqb_spec k key'); [reflexivity|exact IH].
Qed.

Lemma JSMap_get_delete_eq key (m : Entries) :
  JSMap.get key (JSMap.delete key m) = None.
Proof.
  unfold JSMap.delete. induction m as [|[k v] m IH]; simpl; [reflexivity|].
  destruct (String.eqb_spec k key) as [->|Hk]; simpl; [exact IH|].
  destruct (String.eqb_spec k key); [contradiction|exact IH].
Qed.

Lemma JSMap_get_delete_ne key key' (m : Entries) :
  key' <> key -> JSMap.get key' (JSMap.delete key m) = JSMap.get key' m.
Proof.
  intros Hne. unfold JSMap.delete. induction m as [|[k v] m IH]; simpl; [reflexivity|].
  destruct (String.eqb_spec k key) as [->|Hk]; simpl.
  - destruct (String.eqb_spec key key'); [congruence|exact IH].
  - destruct (String.eqb_spec k key'); [reflexivity|exact IH].
Qed.

Lemma JSMap_has_get key (m : Entries) :
  JSMap.has key m = negb (isNull (JSMap.get key m)).
Proof.
  unfold JSMap.has. induction m as [|[k v] m IH]; simpl; [reflexivity|].
  destruct (String.eqb k key); simpl; [reflexivity|exact IH].
Qed.

Lemma JSMap_delete_absent key (m : Entries) :
  JSMap.has key m = false -> JSMap.delete key m = m.
Proof.
  unfold JSMap.has, JSMap.delete. induction m as [|[k v] m IH]; simpl; [reflexivity|].
  destruct (String.eqb k key); simpl; [discriminate|].
  intros H. now rewrite IH.
Qed.

(** The pairs given to [new Map] are read from the end: the last pair with
    a key gives its value. *)
Lemma JSMap_get_fold key (pairs acc : Entries) :
  JSMap.get key (fold_left (fun m e => JSMap.set (fst e) (snd e) m) pairs acc) =
  match JSMap.get key (List.rev pairs) with
  | Some v => Some v
  | None => JSMap.get key acc
  end.
Proof.
  revert acc. induction pairs as [|[k v] pairs IH]; intros acc; simpl; [reflexivity|].
  rewrite IH. clear IH.
  assert (Happ : forall l, JSMap.get key (l ++ [(k, v)]) =
                           match JSMap.get key l with
                           | Some x => Some x
                           | None => if String.eqb k key then Some v else None
                           end).
  { induction l as [|[k' v'] l IHl]; simpl; [reflexivity|].
    destruct (String.eqb k' key); [reflexivity|exact IHl]. }
  rewrite Happ. destruct (JSMap.get key (List.rev pairs)); [reflexivity|].
  destruct (String.eqb_spec k key) as [->|Hne].
  - apply JSMap_get_set_eq.
  - apply JSMap_get_set_ne. congruence.
Qed.

(** What each of the four operations leaves, field by field. *)
Lemma perform_effect (op : AttributeOperation) (w : World) (sp : Path * Node) :
  selectionParent w = Some sp ->
  exists w',
    perform op w = (Normal tt, w') /\
    root w' = root w /\
    _ranges w' = _ranges w /\
    fired w' = fired w ++ [change_attribute] /\
    pendingChanges w' =
      (if storeGuard w
       then pendingChanges w ++ [scheduledChange op (fst sp) w]
       else pendingChanges w) /\
    attributes w' = applyOperation op (attributes w) /\
    _attrs w' = (match op with SetAttributesTo _ => nextMap w | _ => _attrs w end) /\
    match op with
    | SetAttributesTo attrs => Map_entries w' (nextMap w) = JSMap.fromIterable attrs
    | ClearAttributes => Map_entries w' (nextMap w) = []
    | _ => True
    end.
Proof.
  intros Hsp. destruct op as [key value|key|attrs|]; simpl.
  - unfold setAttribute, bind, gets, Map_update, modify, fire. simpl.
    rewrite (_storeAttribute_run w _ sp) by (assumption || reflexivity).
    eexists; split; [reflexivity|].
    destruct (storeGuard w); simpl; repeat split; apply (attributes_insert w); reflexivity.
  - unfold removeAttribute, bind, gets, Map_update, modify, fire. simpl.
    rewrite (_removeStoredAttribute_run w _ sp) by (assumption || reflexivity).
    eexists; split; [reflexivity|].
    destruct (storeGuard w); simpl; repeat split; apply (attributes_insert w); reflexivity.
  - unfold setAttributesTo, bind, gets, toMap, Map_new, modify, fire. simpl.
    rewrite (_setStoredAttributesTo_run w _ sp) by (assumption || reflexivity).
    eexists; split; [reflexivity|].
    destruct (storeGuard w); simpl; repeat split;
      try (apply (attributes_insert w); reflexivity);
      unfold Map_entries; simpl; now rewrite lookup_insert_eq.
  - unfold clearAttributes, bind, gets, Map_update, Map_new, modify, fire. simpl.
    rewrite (_setStoredAttributesTo_run w _ sp) by (assumption || reflexivity).
    eexists; split; [reflexivity|].
    assert (Hempty : default [] (<[nextMap w:=JSMap.fromIterable []]>
                                   (<[_attrs w:=[]]> (maps w)) !! _attrs w) = []).
    { destruct (decide (nextMap w = _attrs w)) as [->|Hne].
      - now rewrite lookup_insert_eq.
      - now rewrite lookup_insert_ne, lookup_insert_eq. }
    destruct (storeGuard w); simpl; repeat split;
      try (unfold attributes, Map_entries; simpl; exact Hempty);
      unfold Map_entries; simpl; now rewrite lookup_insert_eq.
Qed.

(** X1.  The store key round trip: a key under the store prefix starts with
    the prefix and gives the key back when the prefix is cut off; two keys
    never share a store key; and whatever attributes of its own an element
    has, the attributes written under store keys are read back as they
    were, in their order, and the others are not read at all. *)
Theorem store_key_round_trip (key : string) (own entries : Entries) :
  startsWith storePrefix (_getStoreAttributeKey key) = true /\
  substr (String.length storePrefix) (_getStoreAttributeKey key) = key /\
  (forall key', _getStoreAttributeKey key = _getStoreAttributeKey key' -> key = key') /\
  storedEntries (ownEntries own ++ List.map storedAs entries) = entries.
Proof.
  split; [apply storeKey_startsWith|]. split; [apply storeKey_substr|].
  split; [intros key'; apply append_inj|].
  now rewrite storedEntries_app, storedEntries_own, storedEntries_storedAs.
Qed.

(** X2.  After [setAttribute( key, value )], [getAttribute( key )] gives
    [value] and [hasAttribute( key )] is true, and for every other key both
    answer as before. *)
Theorem setAttribute_then_read
    (w : World) (sp : Path * Node) (key : string) (value : Value) :
  selectionParent w = Some sp ->
  exists w',
    setAttribute key value w = (Normal tt, w') /\
    getAttribute key w' = Some value /\
    hasAttribute key w' = true /\
    (forall key', key' <> key ->
       getAttribute key' w' = getAttribute key' w /\
       hasAttribute key' w' = hasAttribute key' w).
Proof.
  intros Hsp.
  destruct (perform_effect (SetAttribute key value) w sp Hsp)
    as (w' & Hrun & _ & _ & _ & _ & Ha & _).
  simpl in Hrun, Ha. exists w'. split; [exact Hrun|].
  unfold getAttribute, hasAttribute. fold (attributes w') (attributes w).
  rewrite Ha, !JSMap_has_get, JSMap_get_set_eq. do 2 (split; [reflexivity|]).
  intros key' Hne. rewrite !JSMap_has_get, JSMap_get_set_ne by assumption. auto.
Qed.

Lemma setAttribute_then_read_witness :
  selectionParent Scenario.boldSelection
    = Some ([0], Element "paragraph" []
                   [CharacterProxy "A" Scenario.bold; CharacterProxy "B" Scenario.bold]) /\
  exists w',
    setAttribute "italic" (VBool true) Scenario.boldSelection = (Normal tt, w') /\
    getAttribute "italic" w' = Some (VBool true) /\
    hasAttribute "italic" w' = true /\
    (forall key', key' <> "italic"%string ->
       getAttribute key' w' = getAttribute key' Scenario.boldSelection /\
       hasAttribute key' w' = hasAttribute key' Scenario.boldSelection).
Proof.
  split; [reflexivity|].
  apply (setAttribute_then_read Scenario.boldSelection
           ([0], Element "paragraph" []
                   [CharacterProxy "A" Scenario.bold; CharacterProxy "B" Scenario.bold])).
  reflexivity.
Defined.

(** X3.  After [removeAttribute( key )], [getAttribute( key )] gives
    [undefined] and [hasAttribute( key )] is false, and every other key
    answers as before.  When the key was not set the attributes are left as
    they were, and [change:attribute] is fired all the same. *)
Theorem removeAttribute_then_read (w : World) (sp : Path * Node) (key : string) :
  selectionParent w = Some sp ->
  exists w',
    removeAttribute key w = (Normal tt, w') /\
    getAttribute key w' = None /\
    hasAttribute key w' = false /\
    (forall key', key' <> key ->
       getAttribute key' w' = getAttribute key' w /\
       hasAttribute key' w' = hasAttribute key' w) /\
    (hasAttribute key w = false -> attributes w' = attributes w) /\
    fired w' = fired w ++ [change_attribute].
Proof.
  intros Hsp.
  destruct (perform_effect (RemoveAttribute key) w sp Hsp)
    as (w' & Hrun & _ & _ & Hf & _ & Ha & _).
  simpl in Hrun, Ha. exists w'. split; [exact Hrun|].
  unfold getAttribute, hasAttribute. fold (attributes w') (attributes w).
  rewrite Ha, !JSMap_has_get, JSMap_get_delete_eq. do 2 (split; [reflexivity|]).
  split; [|split; [|exact Hf]].
  - intros key' Hne. rewrite !JSMap_has_get, JSMap_get_delete_ne by assumption. auto.
  - rewrite <- JSMap_has_get. apply JSMap_delete_absent.
Qed.

Lemma removeAttribute_then_read_witness :
  selectionParent Scenario.boldSelection
    = Some ([0], Element "paragraph" []
                   [CharacterProxy "A" Scenario.bold; CharacterProxy "B" Scenario.bold]) /\
  exists w',
    removeAttribute "bold" Scenario.boldSelection = (Normal tt, w') /\
    getAttribute "bold" w' = None /\
    hasAttribute "bold" w' = false /\
    (forall key', key' <> "bold"%string ->
       getAttribute key' w' = getAttribute key' Scenario.boldSelection /\
       hasAttribute key' w' = hasAttribute key' Scenario.boldSelection) /\
    (hasAttribute "bold" Scenario.boldSelection = false ->
     attributes w' = attributes Scenario.boldSelection) /\
    fired w' = fired Scenario.boldSelection ++ [change_attribute].
Proof.
  split; [reflexivity|].
  apply (removeAttribute_then_read Scenario.boldSelection
           ([0], Element "paragraph" []
                   [CharacterProxy "A" Scenario.bold; CharacterProxy "B" Scenario.bold])).
  reflexivity.
Defined.

(** X4.  After [setAttributesTo( attrs )] nothing of the former attributes
    is left: [getAttribute( key )] gives the value of the last pair of
    [attrs] with that key, [undefined] when there is none, whatever the
    selection held before. *)
Theorem setAttributesTo_then_read (w : World) (sp : Path * Node) (attrs : Entries) :
  selectionParent w = Some sp ->
  exists w',
    setAttributesTo attrs w = (Normal tt, w') /\
    (forall key,
       getAttribute key w' = JSMap.get key (List.rev attrs) /\
       hasAttribute key w' = negb (isNull (JSMap.get key (List.rev attrs)))).
Proof.
  intros Hsp.
  destruct (perform_effect (SetAttributesTo attrs) w sp Hsp)
    as (w' & Hrun & _ & _ & _ & _ & Ha & _).
  simpl in Hrun, Ha. exists w'. split; [exact Hrun|]. intros key.
  unfold getAttribute, hasAttribute. fold (attributes w').
  rewrite Ha, JSMap_has_get. unfold JSMap.fromIterable. rewrite JSMap_get_fold. simpl.
  destruct (JSMap.get key (List.rev attrs)); auto.
Qed.

Lemma setAttributesTo_then_read_witness :
  selectionParent Scenario.boldSelection
    = Some ([0], Element "paragraph" []
                   [CharacterProxy "A" Scenario.bold; CharacterProxy "B" Scenario.bold]) /\
  exists w',
    setAttributesTo [("size"%string, VNumber 1); ("size"%string, VNumber 2)]
      Scenario.boldSelection = (Normal tt, w') /\
    (forall key,
       getAttribute key w'
         = JSMap.get key [("size"%string, VNumber 2); ("size"%string, VNumber 1)] /\
       hasAttribute key w'
         = negb (isNull (JSMap.get key
                           [("size"%string, VNumber 2); ("size"%string, VNumber 1)]))).
Proof.
  split; [reflexivity|].
  apply (setAttributesTo_then_read Scenario.boldSelection
           ([0], Element "paragraph" []
                   [CharacterProxy "A" Scenario.bold; CharacterProxy "B" Scenario.bold])
           [("size"%string, VNumber 1); ("size"%string, VNumber 2)]).
  reflexivity.
Defined.

(** ** The iterator and the map object *)

Lemma iterate_all (w : World) (m : nat) (fuel : nat) :
  length (Map_entries w m) < fuel ->
  fst (iterate fuel (mkMapIterator (Some m) 0) w) = Some (Map_entries w m).
Proof. intros H. rewrite iterate_from by lia. reflexivity. Qed.

(** [setAttributesTo] leaves the map objects there were as they are. *)
Lemma setAttributesTo_keeps_maps (w : World) (sp : Path * Node) (attrs : Entries) (ref : nat) :
  selectionParent w = Some sp ->
  ref <> nextMap w ->
  Map_entries (after (setAttributesTo attrs) w) ref = Map_entries w ref.
Proof.
  intros Hsp Hne.
  unfold after, setAttributesTo, bind, gets, toMap, Map_new, modify, fire. simpl.
  rewrite (_setStoredAttributesTo_run w _ sp) by (assumption || reflexivity).
  unfold Map_entries.
  destruct (storeGuard w); simpl; now rewrite lookup_insert_ne by congruence.
Qed.

Lemma JSMap_set_length key value (m : Entries) :
  length (JSMap.set key value m) <= S (length m).
Proof.
  induction m as [|[k v] m IH]; simpl; [lia|].
  destruct (String.eqb k key); simpl; lia.
Qed.

(** X5.  The value [getAttributes()] returns walks the [Map] object that
    [_attrs] held at the call, and reads it only when it is iterated: taken
    before [setAttribute] or [clearAttributes] and iterated after, it gives
    the changed attributes (these two change the object in place); taken
    before [setAttributesTo] and iterated after, it still gives the former
    attributes, since [setAttributesTo] puts a new object in [_attrs]. *)
Theorem getAttributes_reads_when_iterated
    (w : World) (sp : Path * Node) (key : string) (value : Value)
    (attrs : Entries) (fuel : nat) :
  selectionParent w = Some sp ->
  _attrs w <> nextMap w ->
  S (length (attributes w)) < fuel ->
  exists w1 w2 w3,
    setAttribute key value w = (Normal tt, w1) /\
    fst (iterate fuel (getAttributes w) w1) = Some (JSMap.set key value (attributes w)) /\
    clearAttributes w = (Normal tt, w2) /\
    fst (iterate fuel (getAttributes w) w2) = Some [] /\
    setAttributesTo attrs w = (Normal tt, w3) /\
    fst (iterate fuel (getAttributes w) w3) = Some (attributes w) /\
    attributes w3 = JSMap.fromIterable attrs.
Proof.
  intros Hsp Hfresh Hfuel.
  destruct (perform_effect (SetAttribute key value) w sp Hsp)
    as (w1 & Hrun1 & _ & _ & _ & _ & Ha1 & Hr1 & _).
  destruct (perform_effect ClearAttributes w sp Hsp)
    as (w2 & Hrun2 & _ & _ & _ & _ & Ha2 & Hr2 & _).
  destruct (perform_effect (SetAttributesTo attrs) w sp Hsp)
    as (w3 & Hrun3 & _ & _ & _ & _ & Ha3 & _).
  simpl in Hrun1, Ha1, Hr1, Hrun2, Ha2, Hr2, Hrun3, Ha3.
  pose proof (setAttributesTo_keeps_maps w sp attrs (_attrs w) Hsp Hfresh) as Hold.
  unfold after in Hold. rewrite Hrun3 in Hold. simpl in Hold.
  pose proof (JSMap_set_length key value (attributes w)) as Hlen.
  unfold attributes in Ha1, Ha2. rewrite Hr1 in Ha1. rewrite Hr2 in Ha2.
  exists w1, w2, w3. unfold getAttributes.
  split; [exact Hrun1|].
  split; [rewrite iterate_all; rewrite Ha1; [reflexivity|fold (attributes w); lia]|].
  split; [exact Hrun2|].
  split; [rewrite iterate_all; rewrite Ha2; [reflexivity|simpl; lia]|].
  split; [exact Hrun3|].
  split; [rewrite iterate_all; rewrite Hold; [reflexivity|fold (attributes w); lia]|].
  exact Ha3.
Qed.

Lemma getAttributes_reads_when_iterated_witness :
  selectionParent Scenario.boldSelection
    = Some ([0], Element "paragraph" []
                   [CharacterProxy "A" Scenario.bold; CharacterProxy "B" Scenario.bold]) /\
  _attrs Scenario.boldSelection <> nextMap Scenario.boldSelection /\
  S (length (attributes Scenario.boldSelection)) < 3 /\
  exists w1 w2 w3,
    setAttribute "italic" (VBool true) Scenario.boldSelection = (Normal tt, w1) /\
    fst (iterate 3 (getAttributes Scenario.boldSelection) w1)
      = Some (JSMap.set "italic" (VBool true) (attributes Scenario.boldSelection)) /\
    clearAttributes Scenario.boldSelection = (Normal tt, w2) /\
    fst (iterate 3 (getAttributes Scenario.boldSelection) w2) = Some [] /\
    setAttributesTo Scenario.italic Scenario.boldSelection = (Normal tt, w3) /\
    fst (iterate 3 (getAttributes Scenario.boldSelection) w3)
      = Some (attributes Scenario.boldSelection) /\
    attributes w3 = JSMap.fromIterable Scenario.italic.
Proof.
  split; [reflexivity|]. split; [vm_compute; lia|]. split; [vm_compute; lia|].
  apply (getAttributes_reads_when_iterated Scenario.boldSelection
           ([0], Element "paragraph" []
                   [CharacterProxy "A" Scenario.bold; CharacterProxy "B" Scenario.bold])
           "italic" (VBool true) Scenario.italic 3).
  - reflexivity.
  - vm_compute. lia.
  - vm_compute. lia.
Defined.

(** ** The store follows the map *)

Lemma storedEntries_set key value (attrs : Entries) :
  storedEntries (JSMap.set (_getStoreAttributeKey key) value attrs)
  = JSMap.set key value (storedEntries attrs).
Proof.
  induction attrs as [|[k v] attrs IH]; simpl.
  - now rewrite storeKey_startsWith, storeKey_substr.
  - destruct (String.eqb_spec k (_getStoreAttributeKey key)) as [->|Hne]; simpl.
    + rewrite storeKey_startsWith, storeKey_substr. simpl. now rewrite String.eqb_refl.
    + destruct (startsWith storePrefix k) eqn:Hp; simpl; [|exact IH].
      destruct (String.eqb_spec (substr (String.length storePrefix) k) key) as [Heq|_].
      * exfalso. apply Hne. rewrite <- Heq. symmetry. now apply storeKey_of_stored.
      * now rewrite IH.
Qed.

Lemma storedEntries_delete key (attrs : Entries) :
  storedEntries (JSMap.delete (_getStoreAttributeKey key) attrs)
  = JSMap.delete key (storedEntries attrs).
Proof.
  unfold JSMap.delete. induction attrs as [|[k v] attrs IH]; simpl; [reflexivity|].
  destruct (String.eqb_spec k (_getStoreAttributeKey key)) as [->|Hne]; simpl.
  - rewrite storeKey_startsWith, storeKey_substr. simpl. now rewrite String.eqb_refl.
  - destruct (startsWith storePrefix k) eqn:Hp; simpl; [|exact IH].
    destruct (String.eqb_spec (substr (String.length storePrefix) k) key) as [Heq|_].
    + exfalso. apply Hne. rewrite <- Heq. symmetry. now apply storeKey_of_stored.
    + simpl. now rewrite IH.
Qed.

Lemma ownEntries_set key value (attrs : Entries) :
  ownEntries (JSMap.set (_getStoreAttributeKey key) value attrs) = ownEntries attrs.
Proof.
  unfold ownEntries. induction attrs as [|[k v] attrs IH]; simpl.
  - now rewrite storeKey_startsWith.
  - destruct (String.eqb_spec k (_getStoreAttributeKey key)) as [->|Hne]; simpl.
    + now rewrite storeKey_startsWith.
    + now rewrite IH.
Qed.

Lemma ownEntries_delete key (attrs : Entries) :
  ownEntries (JSMap.delete (_getStoreAttributeKey key) attrs) = ownEntries attrs.
Proof.
  unfold ownEntries, JSMap.delete. induction attrs as [|[k v] attrs IH]; simpl; [reflexivity|].
  destruct (String.eqb_spec k (_getStoreAttributeKey key)) as [->|Hne]; simpl.
  - now rewrite storeKey_startsWith.
  - now rewrite IH.
Qed.

Lemma ownEntries_restored (attrs entries : Entries) :
  ownEntries (restored attrs entries) = ownEntries attrs.
Proof.
  unfold restored, ownEntries. rewrite List.filter_app.
  assert (Hidem : forall l : Entries,
             List.filter (fun attr => negb (startsWith storePrefix (fst attr)))
               (List.filter (fun attr => negb (startsWith storePrefix (fst attr))) l)
             = List.filter (fun attr => negb (startsWith storePrefix (fst attr))) l).
  { induction l as [|x l IHl]; simpl; [reflexivity|].
    destruct (startsWith storePrefix (fst x)) eqn:E; simpl; [exact IHl|].
    now rewrite E, IHl. }
  rewrite Hidem.
  assert (Hnone : List.filter (fun attr => negb (startsWith storePrefix (fst attr)))
                    (List.map storedAs entries) = []).
  { induction entries as [|e entries IHe]; simpl; [reflexivity|].
    now rewrite storeKey_startsWith. }
  now rewrite Hnone, List.app_nil_r.
Qed.

Lemma storeEffect_stored (op : AttributeOperation) (a : Entries) :
  storedEntries (storeEffect op a) = applyOperation op (storedEntries a) /\
  ownEntries (storeEffect op a) = ownEntries a.
Proof.
  destruct op as [key value|key|attrs|]; simpl.
  - split; [apply storedEntries_set|apply ownEntries_set].
  - split; [apply storedEntries_delete|apply ownEntries_delete].
  - split; [apply storedEntries_restored|apply ownEntries_restored].
  - split; [apply storedEntries_restored|apply ownEntries_restored].
Qed.

(** An operation and the run of its change, for a caret in an empty element
    with nothing pending. *)
Lemma performAndFlush_run (op : AttributeOperation) (w : World) (parent : Path) name a :
  pendingChanges w = [] ->
  isCollapsed w = true ->
  selectionParent w = Some (parent, Element name a []) ->
  exists w',
    performAndFlush op w = (Normal tt, w') /\
    pendingChanges w' = [] /\
    isCollapsed w' = true /\
    selectionParent w' = Some (parent, Element name (storeEffect op a) []) /\
    attributes w' = applyOperation op (attributes w) /\
    root w' = alterAttributes (storeEffect op) parent (root w) /\
    fired w' = fired w ++ [change_attribute].
Proof.
  intros Hpending Hc Hsp.
  assert (Hcaret : caretInEmptyElement w parent) by (split; eauto).
  pose proof (caretInEmptyElement_guard _ _ Hcaret) as Hguard.
  destruct (perform_effect op w _ Hsp)
    as (w1 & Hrun & Hr & Hs & Hf & Hp & Ha & _ & Hm).
  rewrite Hguard, Hpending in Hp. simpl in Hp.
  unfold performAndFlush. rewrite (bind_normal _ _ _ _ _ Hrun).
  unfold flushChanges, bind at 1, gets at 1, bind at 1, modify at 1. rewrite Hp.
  set (w0 := set_pendingChanges [] w1).
  assert (Hsp0 : selectionParent w0 = Some (parent, Element name a []))
    by (rewrite (selectionParent_frame w w0); auto).
  assert (Hguard0 : storeGuard w0 = true)
    by (rewrite (storeGuard_frame w w0); auto).
  destruct (selectionParent_inv _ _ Hsp) as (range & Hrange & _ & Hpath & Hnode).
  simpl in Hpath, Hnode.
  assert (Hflush : forEach [scheduledChange op parent w] runChange w0
                   = (Normal tt, set_root (alterAttributes (storeEffect op) parent (root w)) w0)).
  { cbn [forEach]. destruct op as [key value|key|attrs|]; simpl scheduledChange.
    - unfold bind. simpl. now rewrite Hr.
    - unfold bind. simpl. now rewrite Hr.
    - rewrite (bind_normal _ _ _ _ _
                 (runChange_replaces w0 _ (nextMap w) Hsp0 Hguard0
                    ltac:(change (Map_entries w0 (nextMap w)) with (Map_entries w1 (nextMap w));
                          rewrite Hm; apply fromIterable_NoDup))).
      change (Map_entries w0 (nextMap w)) with (Map_entries w1 (nextMap w)).
      rewrite Hm. simpl. rewrite Hr. unfold ret. do 2 f_equal.
      apply (alterAttributes_ext_at _ _ _ _ _ Hnode). reflexivity.
    - rewrite (bind_normal _ _ _ _ _
                 (runChange_replaces w0 _ (nextMap w) Hsp0 Hguard0
                    ltac:(change (Map_entries w0 (nextMap w)) with (Map_entries w1 (nextMap w));
                          rewrite Hm; constructor))).
      change (Map_entries w0 (nextMap w)) with (Map_entries w1 (nextMap w)).
      rewrite Hm. simpl. rewrite Hr. unfold ret. do 2 f_equal.
      apply (alterAttributes_ext_at _ _ _ _ _ Hnode). reflexivity. }
  rewrite Hflush.
  eexists. split; [reflexivity|]. split; [reflexivity|].
  split; [change (isCollapsed w1 = true); now rewrite (isCollapsed_frame w w1)|].
  split.
  { subst parent. apply selectionParent_of.
    - change (getFirstRange w1 = Some range). unfold getFirstRange in *. now rewrite Hs.
    - simpl. rewrite (getNodeByPath_alter_same _ _ _ _ Hnode). reflexivity. }
  split; [exact Ha|]. split; [reflexivity|exact Hf].
Qed.

(** X6.  For a caret in an element without children, with nothing pending:
    an attribute operation and the run of the change it enqueues do to the
    attributes stored on the parent (read with the prefix off) what the
    operation does to the map of the selection -- the same [set], [delete],
    replacement or clearing -- and leave the parent's other attributes and
    the rest of the tree untouched; nothing is pending afterwards. *)
Theorem store_follows_operation
    (op : AttributeOperation) (w : World) (parent : Path) (name : string) (a : Entries) :
  pendingChanges w = [] ->
  isCollapsed w = true ->
  selectionParent w = Some (parent, Element name a []) ->
  exists w' a',
    performAndFlush op w = (Normal tt, w') /\
    pendingChanges w' = [] /\
    selectionParent w' = Some (parent, Element name a' []) /\
    attributes w' = applyOperation op (attributes w) /\
    storedEntries a' = applyOperation op (storedEntries a) /\
    ownEntries a' = ownEntries a /\
    root w' = alterAttributes (fun _ => a') parent (root w).
Proof.
  intros Hpending Hc Hsp.
  destruct (performAndFlush_run op w parent name a Hpending Hc Hsp)
    as (w' & Hrun & Hp' & _ & Hsp' & Ha & Hr & _).
  destruct (storeEffect_stored op a) as (Hstored & Hown).
  destruct (selectionParent_inv _ _ Hsp) as (range & _ & _ & _ & Hnode).
  exists w', (storeEffect op a). repeat (split; [assumption|]).
  rewrite Hr. now apply (alterAttributes_ext_at _ _ _ _ _ Hnode).
Qed.

Lemma store_follows_operation_witness :
  pendingChanges Scenario.caretInStoredBold = [] /\
  isCollapsed Scenario.caretInStoredBold = true /\
  selectionParent Scenario.caretInStoredBold
    = Some ([0], Element "paragraph" [("selection:bold"%string, VBool true)] []) /\
  exists w' a',
    performAndFlush (SetAttribute "italic" (VBool true)) Scenario.caretInStoredBold
      = (Normal tt, w') /\
    pendingChanges w' = [] /\
    selectionParent w' = Some ([0], Element "paragraph" a' []) /\
    attributes w'
      = applyOperation (SetAttribute "italic" (VBool true))
          (attributes Scenario.caretInStoredBold) /\
    storedEntries a'
      = applyOperation (SetAttribute "italic" (VBool true))
          (storedEntries [("selection:bold"%string, VBool true)]) /\
    ownEntries a' = ownEntries [("selection:bold"%string, VBool true)] /\
    root w' = alterAttributes (fun _ => a') [0] (root Scenario.caretInStoredBold).
Proof.
  split; [reflexivity|]. split; [reflexivity|]. split; [reflexivity|].
  apply (store_follows_operation (SetAttribute "italic" (VBool true))
           Scenario.caretInStoredBold [0] "paragraph"
           [("selection:bold"%string, VBool true)]);
    reflexivity.
Defined.

Lemma performAndFlush_sync (op : AttributeOperation) (w : World) (parent : Path) :
  inSync w parent ->
  exists w',
    performAndFlush op w = (Normal tt, w') /\
    inSync w' parent /\
    attributes w' = applyOperation op (attributes w).
Proof.
  intros (Hpending & Hc & name & a & Hsp & Hsync).
  destruct (performAndFlush_run op w parent name a Hpending Hc Hsp)
    as (w' & Hrun & Hp' & Hc' & Hsp' & Ha & _).
  destruct (storeEffect_stored op a) as (Hstored & _).
  exists w'. split; [exact Hrun|]. split; [|exact Ha].
  split; [exact Hp'|]. split; [exact Hc'|].
  exists name, (storeEffect op a). split; [exact Hsp'|].
  now rewrite Hstored, Hsync, Ha.
Qed.

(** X7.  The store stays in step with the selection.  When the selection
    is a caret in an element without children, nothing is pending and the
    attributes stored on the element are those of the selection, then after
    any sequence of attribute operations, each followed by the run of its
    change, all of them complete and the stored attributes are again those
    of the selection, which are what the operations make of the map one
    after the other. *)
Theorem store_stays_in_sync (ops : list AttributeOperation) (w : World) (parent : Path) :
  inSync w parent ->
  exists w',
    forEach ops performAndFlush w = (Normal tt, w') /\
    inSync w' parent /\
    attributes w' = fold_left (fun m op => applyOperation op m) ops (attributes w).
Proof.
  revert w. induction ops as [|op ops IH]; intros w Hsync; cbn [forEach fold_left].
  - exists w. auto.
  - destruct (performAndFlush_sync op w parent Hsync) as (w1 & Hrun & Hsync1 & Ha1).
    rewrite (bind_normal _ _ _ _ _ Hrun).
    destruct (IH w1 Hsync1) as (w' & Hrest & Hsync' & Ha').
    exists w'. split; [exact Hrest|]. split; [exact Hsync'|]. now rewrite Ha', Ha1.
Qed.

Lemma store_stays_in_sync_witness :
  inSync Scenario.caretInEmptyParagraph [0] /\
  exists w',
    forEach [SetAttribute "bold" (VBool true); SetAttributesTo Scenario.italic;
             RemoveAttribute "bold"; ClearAttributes; SetAttribute "size" (VNumber 2)]
      performAndFlush Scenario.caretInEmptyParagraph = (Normal tt, w') /\
    inSync w' [0] /\
    attributes w' = [("size"%string, VNumber 2)].
Proof.
  assert (Hsync : inSync Scenario.caretInEmptyParagraph [0]).
  { split; [reflexivity|]. split; [reflexivity|].
    exists "paragraph"%string, []. split; reflexivity. }
  split; [exact Hsync|].
  exact (store_stays_in_sync
           [SetAttribute "bold" (VBool true); SetAttributesTo Scenario.italic;
            RemoveAttribute "bold"; ClearAttributes; SetAttribute "size" (VNumber 2)]
           Scenario.caretInEmptyParagraph [0] Hsync).
Defined.

(** ** A pass reads the tree and the ranges, and writes the map *)

Lemma resolved_frame (w w' : World) :
  root w' = root w -> _ranges w' = _ranges w -> resolved w' = resolved w.
Proof.
  intros Hr Hs. unfold resolved.
  rewrite (selectionParent_frame _ _ Hr Hs), (isCollapsed_frame _ _ Hs), Hr.
  unfold getFirstRange. now rewrite Hs.
Qed.

Lemma updateAttributes_resolves (w : World) (sp : Path * Node) :
  selectionParent w = Some sp ->
  exists w',
    _updateAttributes w = (Normal tt, w') /\
    root w' = root w /\
    _ranges w' = _ranges w /\
    pendingChanges w' = pendingChanges w /\
    attributes w' = resolved w.
Proof.
  intros Hsp. destruct (selectionParent_inv _ _ Hsp) as (range & Hrange & _).
  unfold resolved. rewrite Hsp, Hrange.
  rewrite (_updateAttributes_run w sp range Hsp Hrange).
  destruct (isCollapsed w) eqn:Hc; simpl negb; cbv iota.
  - pose proof (caretAttrs_not_null (snd sp) (offset (start range))) as Hnn.
    pose proof (caretAttrs_tiers (snd sp) (offset (start range))) as Ht.
    destruct (caretAttrs (snd sp) (offset (start range))) as [attrs|]; [|discriminate].
    simpl in Ht. injection Ht as Ht.
    destruct (replace_run w sp attrs Hsp) as (w' & Hrun & Hr & Hp & Hs & _ & _ & Ha).
    exists w'. repeat (split; [assumption|]).
    rewrite Ha, <- Ht. unfold iterableEntries.
    now rewrite (storeGuard_eq _ _ Hsp), Hc.
  - rewrite firstTextAttrs_find.
    destruct (List.find isTextItem (Range_iterator (root w) range)) as [it|].
    + destruct (replace_run w sp (AttributesIterator (Item_getAttributes (item it))) Hsp)
        as (w' & Hrun & Hr & Hp & Hs & _ & _ & Ha).
      exists w'. repeat (split; [assumption|]). exact Ha.
    + destruct (clear_run w sp Hsp Hc) as (w' & Hrun & Hr & Hp & Hs & _ & _ & Ha).
      exists w'. repeat (split; [assumption|]). exact Ha.
Qed.

(** X8.  What a pass leaves as attributes depends on the tree and the
    ranges only: two selections with the same tree and the same ranges end
    with the same attributes, whatever attributes, pending changes or events
    they had before. *)
Theorem updateAttributes_forgets_former_attributes
    (w1 w2 : World) (sp : Path * Node) :
  root w1 = root w2 ->
  _ranges w1 = _ranges w2 ->
  selectionParent w1 = Some sp ->
  exists w1' w2',
    _updateAttributes w1 = (Normal tt, w1') /\
    _updateAttributes w2 = (Normal tt, w2') /\
    attributes w1' = attributes w2'.
Proof.
  intros Hr Hs Hsp.
  assert (Hsp2 : selectionParent w2 = Some sp)
    by (rewrite <- Hsp; apply selectionParent_frame; auto).
  destruct (updateAttributes_resolves w1 sp Hsp) as (w1' & Hrun1 & _ & _ & _ & Ha1).
  destruct (updateAttributes_resolves w2 sp Hsp2) as (w2' & Hrun2 & _ & _ & _ & Ha2).
  exists w1', w2'. split; [exact Hrun1|]. split; [exact Hrun2|].
  rewrite Ha1, Ha2. apply resolved_frame; auto.
Qed.

Lemma updateAttributes_forgets_former_attributes_witness :
  root Scenario.boldSelection = root Scenario.caretAfterBoldText /\
  _ranges Scenario.boldSelection = _ranges Scenario.caretAfterBoldText /\
  selectionParent Scenario.boldSelection
    = Some ([0], Element "paragraph" []
                   [CharacterProxy "A" Scenario.bold; CharacterProxy "B" Scenario.bold]) /\
  exists w1' w2',
    _updateAttributes Scenario.boldSelection = (Normal tt, w1') /\
    _updateAttributes Scenario.caretAfterBoldText = (Normal tt, w2') /\
    attributes w1' = attributes w2'.
Proof.
  split; [reflexivity|]. split; [reflexivity|]. split; [reflexivity|].
  apply (updateAttributes_forgets_former_attributes
           Scenario.boldSelection Scenario.caretAfterBoldText
           ([0], Element "paragraph" []
                   [CharacterProxy "A" Scenario.bold; CharacterProxy "B" Scenario.bold]));
    reflexivity.
Defined.

(** X9.  A pass, for a collapsed selection or not, completes without
    enqueuing any change and leaves the tree and the ranges as they were;
    a second pass right after completes as well and leaves the attributes
    the first one left. *)
Theorem updateAttributes_twice (w : World) (sp : Path * Node) :
  selectionParent w = Some sp ->
  exists w1 w2,
    _updateAttributes w = (Normal tt, w1) /\
    root w1 = root w /\
    _ranges w1 = _ranges w /\
    pendingChanges w1 = pendingChanges w /\
    updateTwice w = (Normal tt, w2) /\
    attributes w2 = attributes w1 /\
    pendingChanges w2 = pendingChanges w.
Proof.
  intros Hsp.
  destruct (updateAttributes_resolves w sp Hsp) as (w1 & Hrun1 & Hr1 & Hs1 & Hp1 & Ha1).
  assert (Hsp1 : selectionParent w1 = Some sp)
    by (rewrite <- Hsp; apply selectionParent_frame; auto).
  destruct (updateAttributes_resolves w1 sp Hsp1) as (w2 & Hrun2 & Hr2 & Hs2 & Hp2 & Ha2).
  exists w1, w2. repeat (split; [assumption|]).
  split; [unfold updateTwice; now rewrite (bind_normal _ _ _ _ _ Hrun1)|].
  split; [|congruence].
  rewrite Ha2, Ha1. apply resolved_frame; auto.
Qed.

Lemma updateAttributes_twice_witness :
  selectionParent Scenario.imageSelected
    = Some ([0], Element "paragraph" [("selection:bold"%string, VBool true)]
                   [Element "image" [] []]) /\
  exists w1 w2,
    _updateAttributes Scenario.imageSelected = (Normal tt, w1) /\
    root w1 = root Scenario.imageSelected /\
    _ranges w1 = _ranges Scenario.imageSelected /\
    pendingChanges w1 = pendingChanges Scenario.imageSelected /\
    updateTwice Scenario.imageSelected = (Normal tt, w2) /\
    attributes w2 = attributes w1 /\
    pendingChanges w2 = pendingChanges Scenario.imageSelected.
Proof.
  split; [reflexivity|].
  apply (updateAttributes_twice Scenario.imageSelected
           ([0], Element "paragraph" [("selection:bold"%string, VBool true)]
                   [Element "image" [] []])).
  reflexivity.
Defined.

(** ** Detaching and the held ranges *)

Lemma filter_filter_and {A} (f g : A -> bool) (l : list A) :
  List.filter f (List.filter g l) = List.filter (fun x => g x && f x) l.
Proof.
  induction l as [|x l IH]; simpl; [reflexivity|].
  destruct (g x); simpl; [destruct (f x)|]; now rewrite IH.
Qed.

Lemma set_changeListeners_twice (l l' : list nat) (w : World) :
  set_changeListeners l' (set_changeListeners l w) = set_changeListeners l' w.
Proof. reflexivity. Qed.

(** Detaching a list of live ranges, as the world it leaves. *)
Lemma detach_all_exact (ranges : list LiveRange) (w : World) :
  forEach ranges LiveRange_detach w =
  (Normal tt, set_changeListeners (withoutRanges ranges (changeListeners w)) w).
Proof.
  revert w. induction ranges as [|lr ranges IH]; intros w; cbn [forEach].
  - unfold ret, withoutRanges. simpl.
    replace (List.filter (fun _ => true) (changeListeners w)) with (changeListeners w).
    + now destruct w.
    + induction (changeListeners w) as [|i l IHl]; simpl; [reflexivity|]. now rewrite <- IHl.
  - unfold bind, LiveRange_detach at 1, modify. rewrite IH.
    rewrite set_changeListeners_twice. f_equal. f_equal.
    cbn [changeListeners set_changeListeners].
    unfold withoutRanges. rewrite filter_filter_and.
    apply List.filter_ext. intros i. simpl.
    now destruct (i =? liveId lr).
Qed.

Lemma withoutRanges_idempotent (ranges : list LiveRange) (listeners : list nat) :
  withoutRanges ranges (withoutRanges ranges listeners) = withoutRanges ranges listeners.
Proof.
  unfold withoutRanges. rewrite filter_filter_and. apply List.filter_ext.
  intros i. now destruct (existsb _ ranges).
Qed.

Lemma withoutRanges_elem (ranges : list LiveRange) (listeners : list nat) (i : nat) :
  i ∈ withoutRanges ranges listeners <-> i ∈ listeners /\ i ∉ liveId <$> ranges.
Proof.
  unfold withoutRanges.
  rewrite (list_elem_of_In _ i), List.filter_In, negb_true_iff, <- list_elem_of_In.
  assert (Hex : existsb (fun lr => i =? liveId lr) ranges = true <-> i ∈ liveId <$> ranges).
  { rewrite List.existsb_exists, list_elem_of_fmap. split.
    - intros (lr & Hin & Heq). apply Nat.eqb_eq in Heq.
      exists lr. split; [assumption|now apply list_elem_of_In].
    - intros (lr & Heq & Hin). exists lr.
      split; [now apply list_elem_of_In|now apply Nat.eqb_eq]. }
  rewrite <- Hex. destruct (existsb _ ranges); intuition congruence.
Qed.

(** X10.  [destroy()] completes and detaches every range the selection
    holds without letting go of any: the ranges stay in [_ranges], none of
    them is subscribed any more, every other subscription to the document
    stays, and a second [destroy()] changes nothing. *)
Theorem destroy_keeps_ranges_and_is_idempotent (w : World) :
  exists w1,
    destroy w = (Normal tt, w1) /\
    _ranges w1 = _ranges w /\
    (forall i, i ∈ changeListeners w1 <->
               i ∈ changeListeners w /\ i ∉ liveId <$> _ranges w) /\
    destroy w1 = (Normal tt, w1).
Proof.
  unfold destroy, bind, gets. rewrite detach_all_exact.
  eexists. split; [reflexivity|]. split; [reflexivity|]. split.
  - intros i. simpl. apply withoutRanges_elem.
  - simpl. rewrite detach_all_exact. simpl. now rewrite withoutRanges_idempotent.
Qed.

(** X11.  [_pushRange( range )] followed by [_popRange()], for a range that
    passes the check and an id not yet subscribed: both complete, the
    selection holds the ranges it held before, and the subscriptions to the
    document are those there were -- the live range made in between is
    detached again. *)
Theorem pushRange_then_popRange (w : World) (range : Range) :
  Range_isValid (root w) range = true ->
  nextLiveId w ∉ changeListeners w ->
  exists w',
    pushThenPop range w = (Normal tt, w') /\
    _ranges w' = _ranges w /\
    changeListeners w' = changeListeners w /\
    root w' = root w /\
    nextLiveId w' = S (nextLiveId w).
Proof.
  intros Hvalid Hfresh.
  unfold pushThenPop, _pushRange, bind at 1, bind at 1, _checkRange. rewrite Hvalid.
  unfold bind at 1, LiveRange_createFromRange, modify at 1.
  unfold _popRange, bind at 1, gets at 1. cbn [_ranges set__ranges].
  rewrite last_snoc. unfold bind, modify, LiveRange_detach. simpl.
  rewrite List.removelast_last.
  eexists. split; [reflexivity|]. simpl. split; [reflexivity|].
  split; [|split; reflexivity].
  rewrite List.filter_app. simpl. rewrite Nat.eqb_refl. simpl. rewrite List.app_nil_r.
  induction (changeListeners w) as [|i l IH]; simpl; [reflexivity|].
  apply not_elem_of_cons in Hfresh as [Hne Hfresh].
  destruct (Nat.eqb_spec i (nextLiveId w)) as [->|_]; [contradiction|].
  simpl. now rewrite IH.
Qed.

Lemma pushRange_then_popRange_witness :
  Range_isValid (root Scenario.caretAfterBoldText) (Scenario.caretAt [0] 1) = true /\
  (nextLiveId Scenario.caretAfterBoldText ∉ changeListeners Scenario.caretAfterBoldText) /\
  exists w',
    pushThenPop (Scenario.caretAt [0] 1) Scenario.caretAfterBoldText = (Normal tt, w') /\
    _ranges w' = _ranges Scenario.caretAfterBoldText /\
    changeListeners w' = changeListeners Scenario.caretAfterBoldText /\
    root w' = root Scenario.caretAfterBoldText /\
    nextLiveId w' = S (nextLiveId Scenario.caretAfterBoldText).
Proof.
  assert (Hfresh : nextLiveId Scenario.caretAfterBoldText
                     ∉ changeListeners Scenario.caretAfterBoldText).
  { vm_compute. intros H. apply list_elem_of_singleton in H. discriminate. }
  split; [reflexivity|]. split; [exact Hfresh|].
  exact (pushRange_then_popRange Scenario.caretAfterBoldText (Scenario.caretAt [0] 1)
           eq_refl Hfresh).
Defined.


(** ** A change that runs after the selection has moved *)

Lemma fold_set_storedAs (entries acc : Entries) :
  fold_left (fun a attr => JSMap.set (_getStoreAttributeKey (fst attr)) (snd attr) a)
            entries acc
  = fold_left (fun m e => JSMap.set (fst e) (snd e) m) (List.map storedAs entries) acc.
Proof.
  revert acc. induction entries as [|e entries IH]; intros acc; simpl; [reflexivity|apply IH].
Qed.

Lemma JSMap_get_storedAs key (entries : Entries) :
  JSMap.get (_getStoreAttributeKey key) (List.map storedAs entries) = JSMap.get key entries.
Proof.
  induction entries as [|[k v] entries IH]; [reflexivity|].
  cbn [List.map JSMap.get]. unfold storedAs at 1. cbn [fst snd].
  destruct (String.eqb_spec (_getStoreAttributeKey k) (_getStoreAttributeKey key)) as [Heq|Hne].
  - apply append_inj in Heq. subst k. now rewrite String.eqb_refl.
  - destruct (String.eqb_spec k key) as [->|_]; [contradiction|exact IH].
Qed.

Lemma ownEntries_fold_set (entries acc : Entries) :
  ownEntries
    (fold_left (fun a attr => JSMap.set (_getStoreAttributeKey (fst attr)) (snd attr) a)
               entries acc)
  = ownEntries acc.
Proof.
  revert acc. induction entries as [|e entries IH]; intros acc; simpl; [reflexivity|].
  now rewrite IH, ownEntries_set.
Qed.

(** X12.  The function enqueued by [_setStoredAttributesTo] reads the keys
    to remove from the selection as it is when the function runs.  When by
    then the selection is no longer a caret in an element without children,
    it removes nothing from the element it was enqueued for: it only sets
    the entries of its map there under their store keys, so a stored
    attribute that is not in the map is still on the element afterwards. *)
Theorem change_run_late_removes_nothing
    (w : World) (sp : Path * Node) (attrs : nat) (node : Path)
    (name : string) (a : Entries) (ch : list Node) :
  selectionParent w = Some sp ->
  isCollapsed w && (getChildCount (snd sp) =? 0) = false ->
  getNodeByPath (root w) node = Some (Element name a ch) ->
  exists w' a',
    runChange (setStoredAttributesTo_change attrs node) w = (Normal tt, w') /\
    getNodeByPath (root w') node = Some (Element name a' ch) /\
    ownEntries a' = ownEntries a /\
    (forall key,
       JSMap.get (_getStoreAttributeKey key) a' =
       match JSMap.get key (List.rev (Map_entries w attrs)) with
       | Some v => Some v
       | None => JSMap.get (_getStoreAttributeKey key) a
       end).
Proof.
  intros Hsp Hguard Hnode.
  rewrite <- (storeGuard_eq _ _ Hsp) in Hguard.
  cbn [runChange]. unfold bind at 1.
  rewrite (_getStoredAttributes_run w w sp) by (assumption || reflexivity).
  rewrite Hguard. cbn [forEach]. unfold bind at 1, ret at 1.
  unfold bind at 1, gets at 1. unfold Batch_setAttr.
  rewrite (forEach_alter _
             (fun attr => JSMap.set (_getStoreAttributeKey (fst attr)) (snd attr))).
  eexists _, _. split; [reflexivity|]. cbn [root set_root].
  split; [rewrite (getNodeByPath_alter_same _ _ _ _ Hnode); reflexivity|].
  split; [apply ownEntries_fold_set|].
  intros key. rewrite fold_set_storedAs, JSMap_get_fold.
  now rewrite <- List.map_rev, JSMap_get_storedAs.
Qed.

Lemma change_run_late_removes_nothing_witness :
  selectionParent italicOverImage
    = Some ([0], Element "paragraph" [("selection:bold"%string, VBool true)]
                   [Element "image" [] []]) /\
  isCollapsed italicOverImage
    && (getChildCount (Element "paragraph" [("selection:bold"%string, VBool true)]
                         [Element "image" [] []]) =? 0) = false /\
  getNodeByPath (root italicOverImage) [0]
    = Some (Element "paragraph" [("selection:bold"%string, VBool true)]
              [Element "image" [] []]) /\
  exists w' a',
    runChange (setStoredAttributesTo_change (_attrs italicOverImage) [0]) italicOverImage
      = (Normal tt, w') /\
    getNodeByPath (root w') [0] = Some (Element "paragraph" a' [Element "image" [] []]) /\
    ownEntries a' = ownEntries [("selection:bold"%string, VBool true)] /\
    (forall key,
       JSMap.get (_getStoreAttributeKey key) a' =
       match JSMap.get key
               (List.rev (Map_entries italicOverImage (_attrs italicOverImage))) with
       | Some v => Some v
       | None => JSMap.get (_getStoreAttributeKey key)
                   [("selection:bold"%string, VBool true)]
       end).
Proof.
  split; [reflexivity|]. split; [reflexivity|]. split; [reflexivity|].
  apply (change_run_late_removes_nothing italicOverImage
           ([0], Element "paragraph" [("selection:bold"%string, VBool true)]
                   [Element "image" [] []])
           (_attrs italicOverImage) [0]);
    reflexivity.
Defined.
